(** * sqs-worker-go: the polling, dispatch and acknowledgment core

    A shallow embedding of [worker/worker.go].  The Go functions are written
    as programs over the calls they make (handler, SQS client, logger,
    context, wait groups); goroutines are threads of a small interleaving
    semantics whose step function is executable.  A panic (a handler that
    panics, a nil message, a negative wait group counter) stops the whole
    process in Go; here it is a state without a next step. *)

From Stdlib Require Import ZArith String List Lia Bool.
From stdpp Require Import base list.

Local Open Scope string_scope.
Local Open Scope list_scope.

(** ** Go values *)

(** [InvalidMessageError] (worker.go:36) *)
Record InvalidMessageError := {
  SQSMessage : string;
  LogMessage : string
}.

(** A non-nil value of the interface type [error], by dynamic type.  The
    value type [InvalidMessageError] and the pointer type
    [*InvalidMessageError] both implement [error] (the method has a value
    receiver), the pointer being non-nil; [ErrWrapped] is an error that
    wraps another one (what [fmt.Errorf] with [%w] builds); [ErrOther] is
    any other error type. *)
Inductive error_value :=
| ErrInvalidMessage (e : InvalidMessageError)
| ErrInvalidMessagePtr (e : InvalidMessageError)
| ErrWrapped (text : string) (inner : error_value)
| ErrOther (type_name : string) (text : string).

(** The interface type [error]; [None] is the nil interface. *)
Definition go_error := option error_value.

(** [func (e InvalidMessageError) Error() string] (worker.go:41) *)
Definition InvalidMessageError_Error (e : InvalidMessageError) : string :=
  ("[Invalid Message: " ++ SQSMessage e ++ "] " ++ LogMessage e)%string.

(** [err.Error()] by dynamic dispatch. *)
Definition Error (e : error_value) : string :=
  match e with
  | ErrInvalidMessage v => InvalidMessageError_Error v
  | ErrInvalidMessagePtr v => InvalidMessageError_Error v
  | ErrWrapped text _ => text
  | ErrOther _ text => text
  end.

(** [NewInvalidMessageError] (worker.go:46) *)
Definition NewInvalidMessageError (sqsMessage logMessage : string)
  : InvalidMessageError :=
  {| SQSMessage := sqsMessage; LogMessage := logMessage |}.

(** The type assertion [err.(InvalidMessageError)] in its comma-ok form:
    it succeeds only when the dynamic type of [err] is the value type. *)
Definition assert_InvalidMessageError (err : go_error)
  : option InvalidMessageError :=
  match err with
  | Some (ErrInvalidMessage v) => Some v
  | _ => None
  end.

(** [sqs.Message]; the fields are pointers in the SDK, [None] is nil. *)
Record Message := {
  MessageId : option string;
  ReceiptHandle : option string;
  Body : option string;
  MessageAttributes : list (string * string)
}.

Record GetQueueUrlInput := { QueueName : option string }.
Record GetQueueUrlOutput := { QueueUrl : option string }.

Record ReceiveMessageInput := {
  rcv_QueueUrl : option string;
  MaxNumberOfMessages : option Z;
  MessageAttributeNames : list (option string);
  WaitTimeSeconds : option Z
}.
Record ReceiveMessageOutput := { Messages : list Message }.

Record DeleteMessageInput := {
  del_QueueUrl : option string;
  del_ReceiptHandle : option string
}.

(** [aws.String], [aws.Int64] and [aws.StringValue]. *)
Definition aws_String (v : string) : option string := Some v.
Definition aws_Int64 (v : Z) : option Z := Some v.
Definition aws_StringValue (p : option string) : string :=
  match p with Some v => v | None => "" end.

(** The interface [Handler] (worker.go:31) as its method table, and the
    adapter [HandlerFunc] (worker.go:16, 26).  What the handler returns for
    a message is a function of the message. *)
Record Handler := { HandleMessage : Message -> go_error }.
Definition HandlerFunc (f : Message -> go_error) : Handler :=
  {| HandleMessage := fun msg => f msg |}.

(** The exported package variables (worker.go:61); both are [int64]. *)
Record Vars := {
  MaxNumberOfMessage : Z;
  WaitTimeSecond : Z
}.
Definition default_vars : Vars :=
  {| MaxNumberOfMessage := 10; WaitTimeSecond := 20 |}.

(** [Service] (worker.go:51).  The session and the client are handles of
    the SDK; the context of [AWSContext]/[AWSCancelFunc] and the wait group
    [Running] are mutable and shared between goroutines, so they live in
    the state of the execution ([cancelled] and [running] below). *)
Record Service := { JobSQSURL : string }.

(** ** Programs *)

(** A program makes calls of a signature [E], starts goroutines and loops.
    [Loop body k] is [for { body }]: the body answers whether to go round
    again; when it does not, the loop is left and [k] runs. *)
Inductive prog (E : Type -> Type) (A : Type) : Type :=
| Ret (a : A)
| Call {X : Type} (e : E X) (k : X -> prog E A)
| Go (child : prog E unit) (k : prog E A)
| Loop (body : prog E bool) (k : prog E A).
Arguments Ret {E A} a.
Arguments Call {E A X} e k.
Arguments Go {E A} child k.
Arguments Loop {E A} body k.

Fixpoint bind {E A B} (p : prog E A) (f : A -> prog E B) : prog E B :=
  match p with
  | Ret a => f a
  | Call e k => Call e (fun x => bind (k x) f)
  | Go child k => Go child (bind k f)
  | Loop body k => Loop body (bind k f)
  end.

Declare Scope prog_scope.
Delimit Scope prog_scope with prog.
Notation "x <- p ;; q" := (bind p (fun x => q))
  (at level 100, p at next level, right associativity) : prog_scope.
Notation "p ;; q" := (bind p (fun _ => q))
  (at level 100, right associativity) : prog_scope.
Local Open Scope prog_scope.

(** [for _, x := range xs { body }] *)
Fixpoint for_range {E A} (xs : list A) (body : A -> prog E unit) : prog E unit :=
  match xs with
  | [] => Ret tt
  | x :: rest => body x ;; for_range rest body
  end.

(** ** Construction: [NewService] *)

Inductive ctorE : Type -> Type :=
| CSessionMust : ctorE unit
| CGetQueueUrl (input : GetQueueUrlInput) : ctorE (GetQueueUrlOutput * go_error)
| CPrintln (line : string) : ctorE unit
| CWithCancel : ctorE unit.

(** [NewService] (worker.go:69).  [session.Must] panics when the session
    cannot be created; a panic is a call that does not return. *)
Definition NewService (n : string) : prog ctorE (option Service * go_error) :=
  Call CSessionMust Ret ;;
  r <- Call (CGetQueueUrl {| QueueName := aws_String n |}) Ret ;;
  let (resultURL, err) := r : GetQueueUrlOutput * go_error in
  match err with
  | Some e =>
      Call (CPrintln "Can't get the SQS queue") Ret ;;
      Ret (None, Some e)
  | None =>
      Call CWithCancel Ret ;;
      Ret (Some {| JobSQSURL := aws_StringValue (QueueUrl resultURL) |}, None)
  end.

(** ** The service: [Stop], [Start], [run], [handleMessage] *)

(** A wait group: [s.Running], or the [wg] local to one call of [run]. *)
Inductive wg_ref :=
| Running
| LocalWg (n : nat).

Inductive svcE : Type -> Type :=
| EHandleMessage (h : Handler) (msg : Message) : svcE go_error
| EDeleteMessage (params : DeleteMessageInput) : svcE go_error
| EReceiveMessageWithContext (params : ReceiveMessageInput)
    : svcE (ReceiveMessageOutput * go_error)
| EPrintln (line : string) : svcE unit
| EContextDone : svcE bool
| ECancelFunc : svcE unit
| ENewWaitGroup : svcE wg_ref
| EWaitGroupAdd (wg : wg_ref) (delta : Z) : svcE unit
| EWaitGroupWait (wg : wg_ref) : svcE unit
| ELoadVars : svcE Vars.

Definition Println (line : string) : prog svcE unit := Call (EPrintln line) Ret.
Definition WaitGroup_Add (wg : wg_ref) (delta : Z) : prog svcE unit :=
  Call (EWaitGroupAdd wg delta) Ret.
(** [wg.Done()] is [wg.Add(-1)]. *)
Definition WaitGroup_Done (wg : wg_ref) : prog svcE unit := WaitGroup_Add wg (-1).
Definition WaitGroup_Wait (wg : wg_ref) : prog svcE unit :=
  Call (EWaitGroupWait wg) Ret.

Definition delete_params (s : Service) (m : Message) : DeleteMessageInput :=
  {| del_QueueUrl := aws_String (JobSQSURL s);
     del_ReceiptHandle := ReceiptHandle m |}.

(** [handleMessage] (worker.go:156).  The first [if] either falls through
    to the delete ([None]) or returns early ([Some err]). *)
Definition handleMessage (s : Service) (m : Message) (h : Handler)
  : prog svcE go_error :=
  err <- Call (EHandleMessage h m) Ret ;;
  early <- match assert_InvalidMessageError err, err with
           | Some _, Some e => Println (Error e) ;; Ret None
           | Some _, None => Ret None
           | None, Some e => Ret (Some (Some e))
           | None, None => Ret None
           end ;;
  match early with
  | Some r => Ret r
  | None =>
      let params := delete_params s m in
      err <- Call (EDeleteMessage params) Ret ;;
      match err with
      | Some e => Ret (Some e)
      | None => Ret None
      end
  end.

(** The goroutine started for one message (worker.go:144); the deferred
    [wg.Done()] runs when the function returns. *)
Definition worker (s : Service) (h : Handler) (wg : wg_ref) (m : Message)
  : prog svcE unit :=
  err <- handleMessage s m h ;;
  match err with
  | Some e => Println (Error e)
  | None => Ret tt
  end ;;
  WaitGroup_Done wg.

(** [run] (worker.go:138) *)
Definition run (s : Service) (h : Handler) (messages : list Message)
  : prog svcE unit :=
  let numMessages := length messages in
  wg <- Call ENewWaitGroup Ret ;;
  WaitGroup_Add wg (Z.of_nat numMessages) ;;
  for_range messages (fun m => Go (worker s h wg m) (Ret tt)) ;;
  WaitGroup_Wait wg.

Definition receive_params (s : Service) (v : Vars) : ReceiveMessageInput :=
  {| rcv_QueueUrl := aws_String (JobSQSURL s);
     MaxNumberOfMessages := aws_Int64 (MaxNumberOfMessage v);
     MessageAttributeNames := [aws_String "All"];
     WaitTimeSeconds := aws_Int64 (WaitTimeSecond v) |}.

(** One round of the [for] loop of [Start] (worker.go:110): [false] is the
    [return] of the first [select] case, [true] goes round again. *)
Definition poll (s : Service) (h : Handler) : prog svcE bool :=
  done <- Call EContextDone Ret ;;
  if done : bool then
    Println "SQS listener stopped." ;;
    Ret false
  else
    v <- Call ELoadVars Ret ;;
    let params := receive_params s v in
    r <- Call (EReceiveMessageWithContext params) Ret ;;
    let (resp, err) := r : ReceiveMessageOutput * go_error in
    match err with
    | Some e =>
        Println (Error e) ;;
        Ret true
    | None =>
        if (0 <? length (Messages resp))%nat then
          run s h (Messages resp) ;;
          Ret true
        else Ret true
    end.

(** The loop of [Start] with the deferred [s.Running.Done()] after it. *)
Definition Start_loop (s : Service) (h : Handler) : prog svcE unit :=
  Loop (poll s h) (WaitGroup_Done Running).

(** [Start] (worker.go:107) *)
Definition Start (s : Service) (h : Handler) : prog svcE unit :=
  WaitGroup_Add Running 1 ;;
  Start_loop s h.

(** [Stop] (worker.go:100) *)
Definition Stop (s : Service) : prog svcE unit :=
  Println "Reveived stop request, stopping SQS listener." ;;
  Call ECancelFunc Ret ;;
  WaitGroup_Wait Running.

(** ** Sequential execution *)

(** Runs a program that starts no goroutine and has no loop.  [answer]
    gives the result of each call and what it leaves in the record of the
    run; a call without an answer panics, and the run has no result. *)
Fixpoint exec_seq {E A Ev} (answer : forall X, E X -> option (X * list Ev))
    (p : prog E A) : list Ev * option A :=
  match p with
  | Ret a => ([], Some a)
  | Call e k =>
      match answer _ e with
      | Some (x, evs) =>
          let (rest, res) := exec_seq answer (k x) in (evs ++ rest, res)
      | None => ([], None)
      end
  | Go _ _ => ([], None)
  | Loop _ _ => ([], None)
  end.

(** What the constructor meets: whether the session can be created and
    what the transport answers to [GetQueueUrl]. *)
Record ctor_env := {
  session_ok : bool;
  GetQueueUrl : GetQueueUrlInput -> GetQueueUrlOutput * go_error
}.

Inductive ctor_event :=
| SessionCreated
| QueueUrlRequested (input : GetQueueUrlInput)
| CtorLogged (line : string)
| ContextCreated.

Definition ctor_answer (env : ctor_env) (X : Type) (e : ctorE X)
  : option (X * list ctor_event) :=
  match e in ctorE X return option (X * list ctor_event) with
  | CSessionMust =>
      if session_ok env then Some (tt, [SessionCreated]) else None
  | CGetQueueUrl input => Some (GetQueueUrl env input, [QueueUrlRequested input])
  | CPrintln line => Some (tt, [CtorLogged line])
  | CWithCancel => Some (tt, [ContextCreated])
  end.

Definition run_NewService (env : ctor_env) (n : string)
  : list ctor_event * option (option Service * go_error) :=
  exec_seq (ctor_answer env) (NewService n).

(** How many times the queue name was resolved in a run. *)
Fixpoint resolutions (evs : list ctor_event) : nat :=
  match evs with
  | [] => 0
  | QueueUrlRequested _ :: rest => S (resolutions rest)
  | _ :: rest => resolutions rest
  end.

(** ** Concurrent execution *)

(** A goroutine is ready to run its program, or it has issued the call at
    the head of its program (handler, receive or delete) and waits for the
    call to return.  A goroutine at [Ret tt] has finished. *)
Inductive thread :=
| Ready (p : prog svcE unit)
| Waiting (p : prog svcE unit).

Definition finished (t : thread) : bool :=
  match t with
  | Ready (Ret _) => true
  | _ => false
  end.

Inductive action :=
| HandlerCalled (msg : Message)
| HandlerReturned (msg : Message) (err : go_error)
| DeleteCalled (params : DeleteMessageInput)
| DeleteReturned (params : DeleteMessageInput) (err : go_error)
| ReceiveCalled (params : ReceiveMessageInput)
| ReceiveReturned (resp : ReceiveMessageOutput) (err : go_error)
| Logged (line : string)
| DoneChecked (closed : bool)
| CancelCalled
| WaitGroupCreated (wg : wg_ref)
| WaitGroupAdded (wg : wg_ref) (delta : Z)
| WaitGroupWaited (wg : wg_ref)
| VarsLoaded (v : Vars)
| GoStarted (child : nat).

(** The goroutine that acted, and what it did. *)
Definition event := (nat * action)%type.

(** What the goroutines share: the context of the service, [s.Running],
    the wait groups of the calls of [run], and the package variables. *)
Record memory := {
  cancelled : bool;
  running : Z;
  wait_groups : list Z;
  vars : Vars
}.

Record state := {
  threads : list thread;
  mem : memory;
  trace : list event      (* newest first *)
}.

(** What the transport answers when a pending call returns. *)
Inductive response :=
| NoResponse
| DeleteResult (err : go_error)
| ReceiveResult (resp : ReceiveMessageOutput) (err : go_error).

Definition counter (mu : memory) (wg : wg_ref) : option Z :=
  match wg with
  | Running => Some (running mu)
  | LocalWg n => wait_groups mu !! n
  end.

Definition set_counter (mu : memory) (wg : wg_ref) (c : Z) : memory :=
  match wg with
  | Running =>
      {| cancelled := cancelled mu; running := c;
         wait_groups := wait_groups mu; vars := vars mu |}
  | LocalWg n =>
      {| cancelled := cancelled mu; running := running mu;
         wait_groups := <[n := c]> (wait_groups mu); vars := vars mu |}
  end.

(** The result of one step of a goroutine: its next state, the memory, the
    goroutines it started and what it did. *)
Record step_result := {
  sr_thread : thread;
  sr_mem : memory;
  sr_spawned : list thread;
  sr_actions : list action
}.

Definition stepped (t : thread) (mu : memory) (acts : list action)
  : option step_result :=
  Some {| sr_thread := t; sr_mem := mu; sr_spawned := []; sr_actions := acts |}.

(** A ready goroutine makes the call [e].  A call of the handler or of the
    transport is issued and left pending.  [Add] panics on a negative
    counter and [Wait] blocks while the counter is not zero: neither is a
    step. *)
Definition step_call (mu : memory) {X} (e : svcE X)
  : (X -> prog svcE unit) -> option step_result :=
  match e in svcE X return (X -> prog svcE unit) -> option step_result with
  | EHandleMessage h msg => fun k =>
      stepped (Waiting (Call (EHandleMessage h msg) k)) mu [HandlerCalled msg]
  | EDeleteMessage params => fun k =>
      stepped (Waiting (Call (EDeleteMessage params) k)) mu [DeleteCalled params]
  | EReceiveMessageWithContext params => fun k =>
      stepped (Waiting (Call (EReceiveMessageWithContext params) k)) mu
        [ReceiveCalled params]
  | EPrintln line => fun k => stepped (Ready (k tt)) mu [Logged line]
  | EContextDone => fun k =>
      stepped (Ready (k (cancelled mu))) mu [DoneChecked (cancelled mu)]
  | ECancelFunc => fun k =>
      stepped (Ready (k tt))
        {| cancelled := true; running := running mu;
           wait_groups := wait_groups mu; vars := vars mu |}
        [CancelCalled]
  | ENewWaitGroup => fun k =>
      let wg := LocalWg (length (wait_groups mu)) in
      stepped (Ready (k wg))
        {| cancelled := cancelled mu; running := running mu;
           wait_groups := wait_groups mu ++ [0%Z]; vars := vars mu |}
        [WaitGroupCreated wg]
  | EWaitGroupAdd wg delta => fun k =>
      match counter mu wg with
      | Some c =>
          if (c + delta <? 0)%Z then None
          else stepped (Ready (k tt)) (set_counter mu wg (c + delta)%Z)
                 [WaitGroupAdded wg delta]
      | None => None
      end
  | EWaitGroupWait wg => fun k =>
      match counter mu wg with
      | Some c =>
          if (c =? 0)%Z then stepped (Ready (k tt)) mu [WaitGroupWaited wg]
          else None
      | None => None
      end
  | ELoadVars => fun k => stepped (Ready (k (vars mu))) mu [VarsLoaded (vars mu)]
  end.

(** The pending call [e] returns.  The handler returns what it computes;
    the transport returns the response [r] of the environment. *)
Definition step_return (mu : memory) (r : response) {X} (e : svcE X)
  : (X -> prog svcE unit) -> option step_result :=
  match e in svcE X return (X -> prog svcE unit) -> option step_result with
  | EHandleMessage h msg => fun k =>
      let err := HandleMessage h msg in
      stepped (Ready (k err)) mu [HandlerReturned msg err]
  | EDeleteMessage params => fun k =>
      match r with
      | DeleteResult err => stepped (Ready (k err)) mu [DeleteReturned params err]
      | _ => None
      end
  | EReceiveMessageWithContext params => fun k =>
      match r with
      | ReceiveResult resp err =>
          stepped (Ready (k (resp, err))) mu [ReceiveReturned resp err]
      | _ => None
      end
  | _ => fun _ => None
  end.

(** One step of a goroutine; [fresh] is the id a new goroutine gets. *)
Definition step_thread (mu : memory) (fresh : nat) (r : response) (t : thread)
  : option step_result :=
  match t with
  | Ready (Ret _) => None
  | Ready (Call e k) => step_call mu e k
  | Ready (Go child k) =>
      Some {| sr_thread := Ready k; sr_mem := mu;
              sr_spawned := [Ready child]; sr_actions := [GoStarted fresh] |}
  | Ready (Loop body k) =>
      stepped (Ready (continue <- body ;;
                      if continue : bool then Loop body k else k)) mu []
  | Waiting (Call e k) => step_return mu r e k
  | Waiting _ => None
  end.

(** The scheduler picks a goroutine, the environment a response. *)
Definition choice := (nat * response)%type.

Definition step (c : choice) (st : state) : option state :=
  match threads st !! c.1 with
  | Some t =>
      match step_thread (mem st) (length (threads st)) c.2 t with
      | Some res =>
          Some {| threads := <[c.1 := sr_thread res]> (threads st) ++ sr_spawned res;
                  mem := sr_mem res;
                  trace := rev (map (pair c.1) (sr_actions res)) ++ trace st |}
      | None => None
      end
  | None => None
  end.

Fixpoint exec (cs : list choice) (st : state) : option state :=
  match cs with
  | [] => Some st
  | c :: rest =>
      match step c st with
      | Some st' => exec rest st'
      | None => None
      end
  end.

(** The service after [NewService]: goroutine 0 calls [Start], goroutine 1
    calls [Stop]; the scheduler decides when each of them runs. *)
Definition init (s : Service) (h : Handler) (v : Vars) : state :=
  {| threads := [Ready (Start s h); Ready (Stop s)];
     mem := {| cancelled := false; running := 0; wait_groups := []; vars := v |};
     trace := [] |}.

Definition start_tid : nat := 0.
Definition stop_tid : nat := 1.

Definition reachable (s : Service) (h : Handler) (v : Vars) (st : state) : Prop :=
  exists cs, exec cs (init s h v) = Some st.

(** ** One goroutine on its own

    [handleMessage] run to its end as sequential code: the handler and the
    transport answer at once, [del] being the answer of the transport to a
    delete call.  The calls on the memory shared with other goroutines are
    not part of such a run. *)
Definition svc_answer (del : DeleteMessageInput -> go_error) (X : Type)
    (e : svcE X) : option (X * list action) :=
  match e in svcE X return option (X * list action) with
  | EHandleMessage h msg =>
      Some (HandleMessage h msg,
            [HandlerCalled msg; HandlerReturned msg (HandleMessage h msg)])
  | EDeleteMessage params =>
      Some (del params, [DeleteCalled params; DeleteReturned params (del params)])
  | EPrintln line => Some (tt, [Logged line])
  | _ => None
  end.

Definition run_handleMessage (del : DeleteMessageInput -> go_error)
    (s : Service) (m : Message) (h : Handler) : list action * option go_error :=
  exec_seq (svc_answer del) (handleMessage s m h).

(** The limits of the queue on a receive call: 1 to 10 messages, and a
    wait of 0 to 20 seconds. *)
Definition within_limits (p : ReceiveMessageInput) : Prop :=
  exists n w,
    MaxNumberOfMessages p = Some n /\ (1 <= n <= 10)%Z
    /\ WaitTimeSeconds p = Some w /\ (0 <= w <= 20)%Z.

(** ** A run

    Three messages arrive in one batch: the handler accepts the first,
    rejects the second as invalid and fails on the third; the delete of the
    second one fails.  [Stop] is called after the batch, and both [Start]
    and [Stop] return. *)

Definition demo_service : Service := {| JobSQSURL := "https://sqs/jobs" |}.

Definition demo_message (id : string) : Message :=
  {| MessageId := Some id; ReceiptHandle := Some ("rh-" ++ id)%string;
     Body := Some id; MessageAttributes := [] |}.

Definition demo_invalid : error_value :=
  ErrInvalidMessage (NewInvalidMessageError "bad" "malformed body").
Definition demo_failure : error_value := ErrOther "*errors.errorString" "try later".
Definition demo_delete_failure : error_value :=
  ErrOther "awserr.Error" "RequestError: send request failed".

Definition demo_handler : Handler :=
  HandlerFunc (fun msg =>
    match Body msg with
    | Some "bad" => Some demo_invalid
    | Some "tmp" => Some demo_failure
    | _ => None
    end).

Definition demo_batch : ReceiveMessageOutput :=
  {| Messages := [demo_message "ok"; demo_message "bad"; demo_message "tmp"] |}.

Definition demo_schedule : list choice :=
  [ (0, NoResponse); (0, NoResponse); (0, NoResponse); (0, NoResponse);
    (0, NoResponse); (0, ReceiveResult demo_batch None);
    (0, NoResponse); (0, NoResponse); (0, NoResponse); (0, NoResponse);
    (0, NoResponse);
    (2, NoResponse); (3, NoResponse); (4, NoResponse);
    (2, NoResponse); (3, NoResponse); (4, NoResponse);
    (2, NoResponse); (3, NoResponse); (4, NoResponse); (4, NoResponse);
    (2, DeleteResult None); (3, NoResponse);
    (3, DeleteResult (Some demo_delete_failure)); (3, NoResponse);
    (3, NoResponse); (2, NoResponse);
    (0, NoResponse); (0, NoResponse);
    (1, NoResponse); (1, NoResponse);
    (0, NoResponse); (0, NoResponse); (0, NoResponse);
    (1, NoResponse) ].

Definition run_from (st : state) (cs : list choice) : state :=
  match exec cs st with
  | Some st' => st'
  | None => st
  end.

Definition demo_state : state :=
  Eval vm_compute in
    run_from (init demo_service demo_handler default_vars) demo_schedule.

(** The same run when the three goroutines have finished and [run] is at
    its [wg.Wait()], and one step later. *)
Definition demo_joining : state :=
  Eval vm_compute in
    run_from (init demo_service demo_handler default_vars) (take 27 demo_schedule).

Definition demo_joined : state :=
  Eval vm_compute in run_from demo_joining [(0, NoResponse)].

(** The same run when, after the batch, [Start] is inside its next receive
    call and [Stop] has cancelled the context and is at its
    [s.Running.Wait()]. *)
Definition idle_schedule : list choice :=
  take 28 demo_schedule
  ++ [ (0, NoResponse); (0, NoResponse); (0, NoResponse); (0, NoResponse);
       (1, NoResponse); (1, NoResponse) ].

Definition idle_state : state :=
  Eval vm_compute in
    run_from (init demo_service demo_handler default_vars) idle_schedule.

(** Package variables set beyond what the queue accepts, and the state in
    which [Start] has issued its first receive call with them. *)
Definition large_vars : Vars :=
  {| MaxNumberOfMessage := 11; WaitTimeSecond := 30 |}.

Definition large_state : state :=
  Eval vm_compute in
    run_from (init demo_service demo_handler large_vars) (take 5 demo_schedule).

(** [Start] inside its first receive call, and the same when the call has
    returned an error. *)
Definition polling_state : state :=
  Eval vm_compute in
    run_from (init demo_service demo_handler default_vars) (take 5 demo_schedule).

Definition receive_failure : error_value :=
  ErrOther "awserr.Error" "RequestError: connection reset".

Definition errored_state : state :=
  Eval vm_compute in
    run_from polling_state
      [(0, ReceiveResult {| Messages := [] |} (Some receive_failure))].

(** What a constructor may meet: a transport that resolves the queue. *)
Definition demo_env : ctor_env :=
  {| session_ok := true;
     GetQueueUrl := fun _ => ({| QueueUrl := Some "https://sqs/jobs" |}, None) |}.

(** A handler that returns a pointer to an [InvalidMessageError], and the
    run of one message with it up to the end of its goroutine. *)
Definition pointer_failure : error_value :=
  ErrInvalidMessagePtr (NewInvalidMessageError "m1" "cannot parse").

Definition pointer_handler : Handler := HandlerFunc (fun _ => Some pointer_failure).

Definition pointer_schedule : list choice :=
  take 5 demo_schedule
  ++ [ (0, ReceiveResult {| Messages := [demo_message "m1"] |} None);
       (0, NoResponse); (0, NoResponse); (0, NoResponse);
       (2, NoResponse); (2, NoResponse); (2, NoResponse); (2, NoResponse) ].

Definition pointer_state : state :=
  Eval vm_compute in
    run_from (init demo_service pointer_handler default_vars) pointer_schedule.

(** The run of the three messages when each goroutine is inside its
    handler call. *)
Definition demo_handling : state :=
  Eval vm_compute in
    run_from (init demo_service demo_handler default_vars) (take 14 demo_schedule).

(** After [idle_state] the pending receive call returns without messages:
    [Start] is back at its [for] and the context is cancelled. *)
Definition stopping_schedule : list choice :=
  idle_schedule ++ [ (0, ReceiveResult {| Messages := [] |} None) ].

Definition stopping_state : state :=
  Eval vm_compute in
    run_from (init demo_service demo_handler default_vars) stopping_schedule.

(** [Stop] is called, and returns, before [Start] is entered; [Start],
    entered afterwards, runs to its return. *)
Definition early_stop_schedule : list choice :=
  [ (1, NoResponse); (1, NoResponse); (1, NoResponse) ].

Definition early_stop_state : state :=
  Eval vm_compute in
    run_from (init demo_service demo_handler default_vars) early_stop_schedule.

Definition late_start_schedule : list choice :=
  [ (0, NoResponse); (0, NoResponse); (0, NoResponse); (0, NoResponse);
    (0, NoResponse) ].

Definition late_start_state : state :=
  Eval vm_compute in run_from early_stop_state late_start_schedule.

(** ** What a trace tells *)

(** What goroutine [tid] did, newest first. *)
Fixpoint actions_of (tid : nat) (tr : list event) : list action :=
  match tr with
  | [] => []
  | (t, a) :: rest =>
      if Nat.eqb t tid then a :: actions_of tid rest else actions_of tid rest
  end.

(** The batches that the receive calls have returned, newest first. *)
Fixpoint batches (tr : list event) : list (list Message) :=
  match tr with
  | [] => []
  | (_, ReceiveReturned resp None) :: rest => Messages resp :: batches rest
  | _ :: rest => batches rest
  end.

(** The messages received, in the order of their delivery; the messages of
    the newest batch, and those of the batches before it. *)
Definition delivered (tr : list event) : list Message := concat (rev (batches tr)).
Definition last_batch (tr : list event) : list Message := hd [] (batches tr).
Definition earlier (tr : list event) : list Message := concat (rev (tl (batches tr))).

(** The delete calls that goroutine [tid] has issued, newest first. *)
Fixpoint deletes_of (tid : nat) (tr : list event) : list DeleteMessageInput :=
  match tr with
  | [] => []
  | (t, DeleteCalled p) :: rest =>
      if Nat.eqb t tid then p :: deletes_of tid rest else deletes_of tid rest
  | _ :: rest => deletes_of tid rest
  end.

(** The goroutines started for messages: all but [Start] and [Stop]. *)
Definition workers (st : state) : list thread := drop 2 (threads st).

(** A handler result that is a non-nil error other than an
    [InvalidMessageError] value. *)
Definition transient (err : go_error) : bool :=
  match err with
  | Some e =>
      match assert_InvalidMessageError (Some e) with
      | Some _ => false
      | None => true
      end
  | None => false
  end.

(** The delete calls among the actions of one goroutine. *)
Fixpoint delete_calls (acts : list action) : list DeleteMessageInput :=
  match acts with
  | [] => []
  | DeleteCalled p :: rest => p :: delete_calls rest
  | _ :: rest => delete_calls rest
  end.

(** The messages on which goroutine [tid] has called the handler, newest
    first, and the handler calls among the actions of one goroutine. *)
Fixpoint handler_calls_of (tid : nat) (tr : list event) : list Message :=
  match tr with
  | [] => []
  | (t, HandlerCalled m) :: rest =>
      if Nat.eqb t tid then m :: handler_calls_of tid rest
      else handler_calls_of tid rest
  | _ :: rest => handler_calls_of tid rest
  end.

Fixpoint handler_calls (acts : list action) : list Message :=
  match acts with
  | [] => []
  | HandlerCalled m :: rest => m :: handler_calls rest
  | _ :: rest => handler_calls rest
  end.

(** How many of the goroutines have not returned. *)
Fixpoint active (ts : list thread) : nat :=
  match ts with
  | [] => 0
  | t :: rest => (if finished t then 0 else 1) + active rest
  end.

(** The actions of polling and dispatching: all but the log lines, the
    check of the context, its cancellation and the calls on wait groups. *)
Definition work_action (a : action) : bool :=
  match a with
  | ReceiveCalled _ | ReceiveReturned _ _ | HandlerCalled _ | HandlerReturned _ _
  | DeleteCalled _ | DeleteReturned _ _ | GoStarted _ | WaitGroupCreated _
  | VarsLoaded _ => true
  | _ => false
  end.

(** The line that a goroutine is about to log, if it is at a log line. *)
Definition next_log (t : thread) : option string :=
  match t with
  | Ready (Call e _) =>
      match e with
      | EPrintln line => Some line
      | _ => None
      end
  | _ => None
  end.

(** The goroutine is at a [for]. *)
Definition at_loop (t : thread) : bool :=
  match t with
  | Ready (Loop _ _) => true
  | _ => false
  end.

(** The lines that [Start] may log after the trace [tr]: that the listener
    stopped, or the error that a receive call of [tr] returned. *)
Definition start_logs (tr : list event) (line : string) : Prop :=
  line = "SQS listener stopped."
  \/ exists resp e,
       line = Error e /\ (start_tid, ReceiveReturned resp (Some e)) ∈ tr.





(** How many actions of a kind the trace holds since the context was
    cancelled; all of them when it was not. *)
Fixpoint since_cancel (count : action -> bool) (tr : list event) : nat :=
  match tr with
  | [] => 0
  | (_, a) :: rest =>
      match a with
      | CancelCalled => 0
      | _ => (if count a then 1 else 0) + since_cancel count rest
      end
  end.

Definition is_receive_call (a : action) : bool :=
  match a with
  | ReceiveCalled _ => true
  | _ => false
  end.

Definition is_receive_return (a : action) : bool :=
  match a with
  | ReceiveReturned _ _ => true
  | _ => false
  end.

(** The receive calls and the returns of a receive call that a goroutine
    has ahead before it is back at a [select]: it is past the [select] and
    has not made the call, or it has not seen the call return. *)
Definition calls_ahead (t : thread) : nat :=
  match t with
  | Ready (Call e _) =>
      match e with
      | ELoadVars | EReceiveMessageWithContext _ => 1
      | _ => 0
      end
  | _ => 0
  end.

Definition returns_ahead (t : thread) : nat :=
  match t with
  | Ready (Call e _) | Waiting (Call e _) =>
      match e with
      | ELoadVars | EReceiveMessageWithContext _ => 1
      | _ => 0
      end
  | _ => 0
  end.

(** ** Program points

    The states a goroutine of the service goes through, each with the
    program that remains to be run there.  The step of the semantics from a
    program point is computed once and for all ([step_start_at],
    [step_stop_at], [step_worker_at]). *)

Section Service.

Variables (s : Service) (h : Handler) (v : Vars).

(** What follows one round of the loop of [Start]. *)
Definition next_round (continue : bool) : prog svcE unit :=
  if continue then Start_loop s h else WaitGroup_Done Running.

(** The rest of [poll] once the receive call has returned. *)
Definition dispatch (r : ReceiveMessageOutput * go_error) : prog svcE bool :=
  let (resp, err) := r in
  match err with
  | Some e => Println (Error e) ;; Ret true
  | None =>
      if (0 <? length (Messages resp))%nat then run s h (Messages resp) ;; Ret true
      else Ret true
  end.

(** The rest of [Start] from the receive call on. *)
Definition receive_call (v : Vars) : prog svcE unit :=
  continue <- (r <- Call (EReceiveMessageWithContext (receive_params s v)) Ret ;;
               dispatch r) ;;
  next_round continue.

(** The rest of [run] when the messages [rest] have no goroutine yet. *)
Definition spawn_rest (wg : wg_ref) (rest : list Message) : prog svcE unit :=
  continue <- ((for_range rest (fun m => Go (worker s h wg m) (Ret tt)) ;;
                WaitGroup_Wait wg) ;; Ret true) ;;
  next_round continue.

(** [Start] *)
Inductive start_pc :=
| SEnter                                    (* at [s.Running.Add(1)] *)
| SLoop                                     (* at [for] *)
| SPoll                                     (* at [select] *)
| SStopLog                                  (* the context is done: at the log line *)
| SDeferred                                 (* at the deferred [s.Running.Done()] *)
| SReturned                                 (* [Start] has returned *)
| SLoad                                     (* default case: reading the variables *)
| SReceive (v : Vars)                       (* at the receive call *)
| SReceiving (v : Vars)                     (* inside the receive call *)
| SReceiveErr (e : error_value)             (* at [Logger.Println(err)] *)
| SRunNew (msgs : list Message)             (* in [run], at [var wg] *)
| SRunAdd (wg : wg_ref) (msgs : list Message)   (* at [wg.Add(numMessages)] *)
| SRunSpawn (wg : wg_ref) (rest : list Message) (* in the [range] loop, then at [wg.Wait()] *).

Definition start_at (pc : start_pc) : thread :=
  match pc with
  | SEnter => Ready (Start s h)
  | SLoop => Ready (Start_loop s h)
  | SPoll => Ready (continue <- poll s h ;; next_round continue)
  | SStopLog => Ready (Println "SQS listener stopped." ;; WaitGroup_Done Running)
  | SDeferred => Ready (WaitGroup_Done Running)
  | SReturned => Ready (Ret tt)
  | SLoad => Ready (v <- Call ELoadVars Ret ;; receive_call v)
  | SReceive v => Ready (receive_call v)
  | SReceiving v => Waiting (receive_call v)
  | SReceiveErr e => Ready (Println (Error e) ;; Start_loop s h)
  | SRunNew msgs => Ready (continue <- (run s h msgs ;; Ret true) ;; next_round continue)
  | SRunAdd wg msgs =>
      Ready (WaitGroup_Add wg (Z.of_nat (length msgs)) ;; spawn_rest wg msgs)
  | SRunSpawn wg rest => Ready (spawn_rest wg rest)
  end.

(** The result of a step, from the program point reached. *)
Definition at_point {pc : Type} (at_pc : pc -> thread)
    (r : option (pc * memory * list thread * list action)) : option step_result :=
  match r with
  | Some (p, mu, spawned, acts) =>
      Some {| sr_thread := at_pc p; sr_mem := mu;
              sr_spawned := spawned; sr_actions := acts |}
  | None => None
  end.

(** [wg.Add(delta)] on the memory; no result when it panics. *)
Definition add_counter (mu : memory) (wg : wg_ref) (delta : Z) : option memory :=
  match counter mu wg with
  | Some c => if (c + delta <? 0)%Z then None else Some (set_counter mu wg (c + delta)%Z)
  | None => None
  end.

(** [var wg sync.WaitGroup] *)
Definition new_wait_group (mu : memory) : memory :=
  {| cancelled := cancelled mu; running := running mu;
     wait_groups := wait_groups mu ++ [0%Z]; vars := vars mu |}.

(** The step of [Start] from each of its program points. *)
Definition start_step (mu : memory) (fresh : nat) (r : response) (pc : start_pc)
  : option (start_pc * memory * list thread * list action) :=
  match pc with
  | SEnter =>
      match add_counter mu Running 1 with
      | Some mu' => Some (SLoop, mu', [], [WaitGroupAdded Running 1])
      | None => None
      end
  | SLoop => Some (SPoll, mu, [], [])
  | SPoll =>
      Some (if cancelled mu then SStopLog else SLoad, mu, [],
            [DoneChecked (cancelled mu)])
  | SStopLog => Some (SDeferred, mu, [], [Logged "SQS listener stopped."])
  | SDeferred =>
      match add_counter mu Running (-1) with
      | Some mu' => Some (SReturned, mu', [], [WaitGroupAdded Running (-1)])
      | None => None
      end
  | SReturned => None
  | SLoad => Some (SReceive (vars mu), mu, [], [VarsLoaded (vars mu)])
  | SReceive v => Some (SReceiving v, mu, [], [ReceiveCalled (receive_params s v)])
  | SReceiving v =>
      match r with
      | ReceiveResult resp err =>
          Some (match err with
                | Some e => SReceiveErr e
                | None => match Messages resp with
                          | [] => SLoop
                          | _ :: _ => SRunNew (Messages resp)
                          end
                end, mu, [], [ReceiveReturned resp err])
      | _ => None
      end
  | SReceiveErr e => Some (SLoop, mu, [], [Logged (Error e)])
  | SRunNew msgs =>
      let wg := LocalWg (length (wait_groups mu)) in
      Some (SRunAdd wg msgs, new_wait_group mu, [], [WaitGroupCreated wg])
  | SRunAdd wg msgs =>
      match add_counter mu wg (Z.of_nat (length msgs)) with
      | Some mu' =>
          Some (SRunSpawn wg msgs, mu', [], [WaitGroupAdded wg (Z.of_nat (length msgs))])
      | None => None
      end
  | SRunSpawn wg [] =>
      match counter mu wg with
      | Some 0%Z => Some (SLoop, mu, [], [WaitGroupWaited wg])
      | _ => None
      end
  | SRunSpawn wg (m :: rest) =>
      Some (SRunSpawn wg rest, mu, [Ready (worker s h wg m)], [GoStarted fresh])
  end.

(** [Stop] *)
Inductive stop_pc :=
| PLog                                      (* at the log line *)
| PCancel                                   (* at [s.AWSCancelFunc()] *)
| PWait                                     (* at [s.Running.Wait()] *)
| PReturned.                                (* [Stop] has returned *)

Definition stop_at (pc : stop_pc) : thread :=
  match pc with
  | PLog => Ready (Stop s)
  | PCancel => Ready (Call ECancelFunc Ret ;; WaitGroup_Wait Running)
  | PWait => Ready (WaitGroup_Wait Running)
  | PReturned => Ready (Ret tt)
  end.

Definition cancel (mu : memory) : memory :=
  {| cancelled := true; running := running mu;
     wait_groups := wait_groups mu; vars := vars mu |}.

Definition stop_step (mu : memory) (pc : stop_pc)
  : option (stop_pc * memory * list thread * list action) :=
  match pc with
  | PLog =>
      Some (PCancel, mu, [],
            [Logged "Reveived stop request, stopping SQS listener."])
  | PCancel => Some (PWait, cancel mu, [], [CancelCalled])
  | PWait =>
      if (running mu =? 0)%Z then Some (PReturned, mu, [], [WaitGroupWaited Running])
      else None
  | PReturned => None
  end.

(** The goroutine of one message: the rest of [handleMessage] after its
    first [if]. *)
Definition acknowledge (m : Message) : prog svcE go_error :=
  err <- Call (EDeleteMessage (delete_params s m)) Ret ;;
  match err with
  | Some e => Ret (Some e)
  | None => Ret None
  end.

(** The rest of the goroutine once [handleMessage] has returned. *)
Definition report (wg : wg_ref) (err : go_error) : prog svcE unit :=
  match err with
  | Some e => Println (Error e)
  | None => Ret tt
  end ;;
  WaitGroup_Done wg.

(** The delete call of a goroutine near its end: not made ([None]), or
    made with the given result. *)
Definition delete_status := option go_error.

Inductive worker_pc :=
| WStart                                    (* at the handler call *)
| WHandling                                 (* inside the handler *)
| WLogInvalid (e : error_value)             (* at the log line of the first [if] *)
| WDelete                                   (* at the delete call *)
| WDeleting                                 (* inside the delete call *)
| WLogErr (e : error_value) (deleted : bool) (* at the log line of the goroutine *)
| WWgDone (d : delete_status)               (* at the deferred [wg.Done()] *)
| WEnd (d : delete_status).                 (* the goroutine has returned *)

Definition worker_at (wg : wg_ref) (m : Message) (pc : worker_pc) : thread :=
  match pc with
  | WStart => Ready (worker s h wg m)
  | WHandling => Waiting (worker s h wg m)
  | WLogInvalid e => Ready (Println (Error e) ;; r <- acknowledge m ;; report wg r)
  | WDelete => Ready (r <- acknowledge m ;; report wg r)
  | WDeleting => Waiting (r <- acknowledge m ;; report wg r)
  | WLogErr e _ => Ready (Println (Error e) ;; WaitGroup_Done wg)
  | WWgDone _ => Ready (WaitGroup_Done wg)
  | WEnd _ => Ready (Ret tt)
  end.

(** Where the goroutine goes when the handler has returned [err]. *)
Definition after_handler (err : go_error) : worker_pc :=
  match err with
  | None => WDelete
  | Some e =>
      match assert_InvalidMessageError (Some e) with
      | Some _ => WLogInvalid e
      | None => WLogErr e false
      end
  end.

Definition worker_step (mu : memory) (r : response) (wg : wg_ref) (m : Message)
    (pc : worker_pc) : option (worker_pc * memory * list thread * list action) :=
  match pc with
  | WStart => Some (WHandling, mu, [], [HandlerCalled m])
  | WHandling =>
      let err := HandleMessage h m in
      Some (after_handler err, mu, [], [HandlerReturned m err])
  | WLogInvalid e => Some (WDelete, mu, [], [Logged (Error e)])
  | WDelete => Some (WDeleting, mu, [], [DeleteCalled (delete_params s m)])
  | WDeleting =>
      match r with
      | DeleteResult derr =>
          Some (match derr with
                | Some e => WLogErr e true
                | None => WWgDone (Some None)
                end, mu, [], [DeleteReturned (delete_params s m) derr])
      | _ => None
      end
  | WLogErr e deleted =>
      Some (WWgDone (if deleted then Some (Some e) else None), mu, [],
            [Logged (Error e)])
  | WWgDone d =>
      match add_counter mu wg (-1) with
      | Some mu' => Some (WEnd d, mu', [], [WaitGroupAdded wg (-1)])
      | None => None
      end
  | WEnd _ => None
  end.

(** The goroutine of a message: its wait group, its message and where it
    is. *)
Record worker_info := {
  wi_wg : wg_ref;
  wi_msg : Message;
  wi_pc : worker_pc
}.

Definition worker_thread (w : worker_info) : thread :=
  worker_at (wi_wg w) (wi_msg w) (wi_pc w).

Definition ended (pc : worker_pc) : bool :=
  match pc with
  | WEnd _ => true
  | _ => false
  end.

(** How many goroutines have not returned. *)
Fixpoint unfinished (ws : list worker_info) : nat :=
  match ws with
  | [] => 0
  | w :: rest => (if ended (wi_pc w) then 0 else 1) + unfinished rest
  end.

(** What a goroutine has done when it is at [pc], oldest first. *)
Definition handled (m : Message) : list action :=
  [HandlerCalled m; HandlerReturned m (HandleMessage h m)].

Definition before_delete (m : Message) : list action :=
  handled m ++ match HandleMessage h m with
               | Some e => [Logged (Error e)]
               | None => []
               end.

Definition deleted (m : Message) (derr : go_error) : list action :=
  before_delete m ++ [DeleteCalled (delete_params s m);
                      DeleteReturned (delete_params s m) derr].

Definition reported (m : Message) (d : delete_status) : list action :=
  match d with
  | None => before_delete m
  | Some None => deleted m None
  | Some (Some e) => deleted m (Some e) ++ [Logged (Error e)]
  end.

Definition worker_events (wg : wg_ref) (m : Message) (pc : worker_pc)
  : list action :=
  match pc with
  | WStart => []
  | WHandling => [HandlerCalled m]
  | WLogInvalid _ => handled m
  | WDelete => before_delete m
  | WDeleting => before_delete m ++ [DeleteCalled (delete_params s m)]
  | WLogErr _ false => handled m
  | WLogErr e true => deleted m (Some e)
  | WWgDone d => reported m d
  | WEnd d => reported m d ++ [WaitGroupAdded wg (-1)]
  end.

(** The program points that the result of the handler allows. *)
Definition worker_ok (m : Message) (pc : worker_pc) : Prop :=
  match pc with
  | WStart | WHandling => True
  | WLogInvalid e => HandleMessage h m = Some e /\ transient (Some e) = false
  | WDelete | WDeleting => transient (HandleMessage h m) = false
  | WLogErr e false => HandleMessage h m = Some e /\ transient (Some e) = true
  | WLogErr _ true => transient (HandleMessage h m) = false
  | WWgDone None | WEnd None => transient (HandleMessage h m) = true
  | WWgDone (Some _) | WEnd (Some _) => transient (HandleMessage h m) = false
  end.

(** Messages of the newest batch that have no goroutine yet. *)
Definition pending (pc : start_pc) : list Message :=
  match pc with
  | SRunNew msgs => msgs
  | SRunAdd _ msgs => msgs
  | SRunSpawn _ rest => rest
  | _ => []
  end.

(** The wait group of the batch whose goroutines may be running. *)
Definition spawning (pc : start_pc) : option wg_ref :=
  match pc with
  | SRunSpawn wg _ => Some wg
  | _ => None
  end.

(** [Start] is between its [Add(1)] and its deferred [Done()]. *)
Definition start_active (pc : start_pc) : bool :=
  match pc with
  | SEnter | SReturned => false
  | _ => true
  end.

(** [Start] has seen the context done. *)
Definition leaving (pc : start_pc) : bool :=
  match pc with
  | SStopLog | SDeferred | SReturned => true
  | _ => false
  end.

(** [Start] is not past the [select] of a round. *)
Definition idle (pc : start_pc) : bool :=
  match pc with
  | SEnter | SLoop | SPoll | SStopLog | SDeferred | SReturned => true
  | _ => false
  end.

(** [Start] has made its [Add(1)]; it has made its deferred [Done()]. *)
Definition entered (pc : start_pc) : bool :=
  match pc with
  | SEnter => false
  | _ => true
  end.

Definition returned (pc : start_pc) : bool :=
  match pc with
  | SReturned => true
  | _ => false
  end.

(** The actions of the goroutine of a message on its message. *)
Definition handling_action (a : action) : bool :=
  match a with
  | HandlerCalled _ | HandlerReturned _ _ | DeleteCalled _ | DeleteReturned _ _ => true
  | _ => false
  end.

Definition stop_cancelled (pc : stop_pc) : bool :=
  match pc with
  | PWait | PReturned => true
  | _ => false
  end.

(** The invariant of the executions from [init s h v]: [Start] is at [spc],
    [Stop] at [ppc], and the goroutines of the messages are [ws]. *)
Record Inv (st : state) (spc : start_pc) (ppc : stop_pc)
    (ws : list worker_info) : Prop := {
  inv_threads :
    threads st = start_at spc :: stop_at ppc :: map worker_thread ws;
  inv_vars : vars (mem st) = v;
  inv_running : running (mem st) = if start_active spc then 1%Z else 0%Z;
  inv_cancelled : cancelled (mem st) = stop_cancelled ppc;
  inv_leaving : leaving spc = true -> cancelled (mem st) = true;
  inv_stopped : ppc = PReturned -> idle spc = true;
  inv_receive_vars :
    match spc with
    | SReceive v' | SReceiving v' => v' = v
    | _ => True
    end;
  inv_delivered :
    exists pre, map wi_msg ws = earlier (trace st) ++ pre
                /\ last_batch (trace st) = pre ++ pending spc;
  inv_current :
    forall i w, ws !! i = Some w -> ended (wi_pc w) = false ->
                length (earlier (trace st)) <= i;
  inv_joined :
    spawning spc = None -> Forall (fun w => ended (wi_pc w) = true) ws;
  inv_spawning :
    forall wg, spawning spc = Some wg ->
      counter (mem st) wg = Some (Z.of_nat (length (pending spc) + unfinished ws))
      /\ Forall (fun w => ended (wi_pc w) = false -> wi_wg w = wg) ws;
  inv_add :
    forall wg msgs, spc = SRunAdd wg msgs -> counter (mem st) wg = Some 0%Z;
  inv_local :
    match spc with
    | SRunAdd wg _ | SRunSpawn wg _ => wg <> Running
    | _ => True
    end;
  inv_ok : Forall (fun w => worker_ok (wi_msg w) (wi_pc w)) ws;
  inv_own :
    forall i w, ws !! i = Some w ->
      actions_of (2 + i) (trace st)
      = rev (worker_events (wi_wg w) (wi_msg w) (wi_pc w));
  inv_tids : Forall (fun e => e.1 < 2 + length ws) (trace st);
  inv_receives :
    Forall (fun e => forall p, e.2 = ReceiveCalled p ->
                               e.1 = start_tid /\ p = receive_params s v)
           (trace st);
  inv_cancel_logged :
    cancelled (mem st) = true -> (stop_tid, CancelCalled) ∈ trace st;
  inv_handling :
    Forall (fun e => handling_action e.2 = true -> 2 <= e.1) (trace st);
  inv_entered :
    (start_tid, WaitGroupAdded Running 1) ∈ trace st <-> entered spc = true;
  inv_returned :
    (start_tid, WaitGroupAdded Running (-1)) ∈ trace st <-> returned spc = true;
  inv_saw_done :
    leaving spc = true -> (start_tid, DoneChecked true) ∈ trace st
}.

(** What the goroutine of a message may do. *)
Definition worker_action (a : action) : bool :=
  match a with
  | HandlerCalled _ | HandlerReturned _ _ | DeleteCalled _ | DeleteReturned _ _
  | Logged _ | WaitGroupAdded _ _ => true
  | _ => false
  end.

(** The goroutine has issued its delete call. *)
Definition has_deleted (pc : worker_pc) : bool :=
  match pc with
  | WDeleting | WLogErr _ true | WWgDone (Some _) | WEnd (Some _) => true
  | _ => false
  end.

(** ** The steps from the program points, and the invariant *)

Lemma step_start_at mu fresh r pc :
  step_thread mu fresh r (start_at pc) = at_point start_at (start_step mu fresh r pc).
Proof.
  destruct pc as [| | | | | | |v'|v'|e|msgs|wg msgs|wg [|m rest]]; cbn;
    unfold add_counter; try reflexivity.
  - destruct (running mu + 1 <? 0)%Z; reflexivity.
  - destruct (cancelled mu); reflexivity.
  - destruct (running mu + -1 <? 0)%Z; reflexivity.
  - destruct r as [|err|[[|m ms]] [e|]]; reflexivity.
  - destruct (counter mu wg) as [c|]; [|reflexivity].
    destruct (c + Z.of_nat (length msgs) <? 0)%Z; reflexivity.
  - destruct (counter mu wg) as [[|p|p]|]; reflexivity.
Qed.

Lemma step_stop_at mu fresh r pc :
  step_thread mu fresh r (stop_at pc) = at_point stop_at (stop_step mu pc).
Proof.
  destruct pc; cbn; try reflexivity.
  destruct (running mu =? 0)%Z; reflexivity.
Qed.

Lemma step_worker_at mu fresh r wg m pc :
  step_thread mu fresh r (worker_at wg m pc)
  = at_point (worker_at wg m) (worker_step mu r wg m pc).
Proof.
  destruct pc as [| |e| | |e d|d|d]; cbn; unfold add_counter; try reflexivity.
  - unfold after_handler.
    destruct (HandleMessage h m) as [[x|x|t i|n t]|]; reflexivity.
  - destruct r as [|[e|]|resp err]; reflexivity.
  - destruct (counter mu wg) as [c|]; [|reflexivity].
    destruct (c + -1 <? 0)%Z; reflexivity.
Qed.

Lemma worker_step_events mu r wg m pc pc' mu' sp acts :
  worker_step mu r wg m pc = Some (pc', mu', sp, acts) ->
  worker_ok m pc ->
  worker_ok m pc' /\ sp = []
  /\ worker_events wg m pc' = worker_events wg m pc ++ acts.
Proof.
  intros Hs Hok.
  destruct pc as [| |e| | |e [|]|d|d]; cbn in Hs.
  - inversion Hs; subst. done.
  - inversion Hs; subst; clear Hs. unfold after_handler.
    destruct (HandleMessage h m) as [[x|x|t i|n t]|] eqn:He; cbn;
      unfold before_delete, handled; rewrite ?He; done.
  - inversion Hs; subst; clear Hs. destruct Hok as [He Ht]. cbn.
    unfold before_delete. rewrite He. done.
  - inversion Hs; subst. done.
  - destruct r as [|derr|]; try discriminate. inversion Hs; subst; clear Hs.
    destruct derr as [e|]; cbn; unfold deleted; rewrite <- ?app_assoc; done.
  - inversion Hs; subst; clear Hs. cbn. done.
  - inversion Hs; subst; clear Hs. destruct Hok as [He Ht]. cbn.
    unfold before_delete. rewrite He. done.
  - destruct (add_counter mu wg (-1)); [|discriminate].
    inversion Hs; subst; clear Hs. destruct d; done.
  - discriminate.
Qed.

Lemma delivered_split tr : delivered tr = earlier tr ++ last_batch tr.
Proof.
  unfold delivered, earlier, last_batch.
  destruct (batches tr) as [|b bs]; cbn; [done|].
  rewrite concat_app. cbn. by rewrite app_nil_r.
Qed.

Lemma unfinished_0 ws :
  unfinished ws = 0 <-> Forall (fun w => ended (wi_pc w) = true) ws.
Proof.
  induction ws as [|w ws IH]; cbn; [done|].
  rewrite Forall_cons. destruct (ended (wi_pc w)); cbn; [tauto|].
  split; [lia|]. intros [? _]. done.
Qed.

Lemma unfinished_app ws1 ws2 :
  unfinished (ws1 ++ ws2) = unfinished ws1 + unfinished ws2.
Proof. induction ws1 as [|w ws1 IH]; cbn; [done|]. rewrite IH. lia. Qed.

Lemma unfinished_insert ws i w w' :
  ws !! i = Some w ->
  unfinished (<[i := w']> ws) + (if ended (wi_pc w) then 0 else 1)
  = unfinished ws + (if ended (wi_pc w') then 0 else 1).
Proof.
  revert i. induction ws as [|x ws IH]; intros [|i] Hi; try done.
  - inversion Hi; subst. cbn.
    destruct (ended (wi_pc w)), (ended (wi_pc w')); lia.
  - specialize (IH i Hi). change (<[S i:=w']> (x :: ws)) with (x :: <[i:=w']> ws).
    cbn [unfinished].
    destruct (ended (wi_pc x)), (ended (wi_pc w)), (ended (wi_pc w')); lia.
Qed.

Lemma counter_set mu wg c0 c :
  counter mu wg = Some c0 -> counter (set_counter mu wg c) wg = Some c.
Proof.
  destruct wg as [|n]; cbn; [done|]. intros Hn.
  apply list_lookup_insert_eq. by eapply lookup_lt_Some.
Qed.

Lemma actions_of_fresh tid n tr :
  Forall (fun e : event => e.1 < n) tr -> n <= tid -> actions_of tid tr = [].
Proof.
  intros Hall Hle. induction Hall as [|[t a] tr Ht _ IH]; cbn in *; [done|].
  destruct (Nat.eqb_spec t tid); [lia|done].
Qed.

Lemma elem_of_cons_other (x e : event) tr (P : Prop) :
  x <> e -> (x ∈ tr <-> P) -> (x ∈ e :: tr <-> P).
Proof. intros Hne <-. rewrite elem_of_cons. tauto. Qed.

Lemma elem_of_cons_here (x : event) tr (P : Prop) :
  P -> (x ∈ x :: tr <-> P).
Proof. intros HP. rewrite elem_of_cons. tauto. Qed.

Lemma Inv_init : Inv (init s h v) SEnter PLog [].
Proof.
  split; cbn; try done.
  - exists []. done.
  - split; [intros H; by apply elem_of_nil in H|done].
  - split; [intros H; by apply elem_of_nil in H|done].
Qed.

(** The state after a step from a program point. *)
Lemma step_at_point {pc : Type} (at_pc : pc -> thread) tid r st st' p res :
  threads st !! tid = Some (at_pc p) ->
  step_thread (mem st) (length (threads st)) r (at_pc p) = at_point at_pc res ->
  step (tid, r) st = Some st' ->
  exists p' mu' sp acts,
    res = Some (p', mu', sp, acts)
    /\ st' = {| threads := <[tid := at_pc p']> (threads st) ++ sp;
                mem := mu';
                trace := rev (map (pair tid) acts) ++ trace st |}.
Proof.
  intros Ht Hs Hstep. unfold step in Hstep. cbn in Hstep.
  rewrite Ht, Hs in Hstep.
  destruct res as [[[[p' mu'] sp] acts]|]; cbn in Hstep; [|discriminate].
  inversion Hstep; subst. eauto 10.
Qed.

(** Side conditions on the trace after one more event. *)
Ltac trace_side :=
  unfold start_tid, stop_tid in *; cbn; rewrite ?app_nil_r;
  match goal with
  | |- Forall _ (_ :: _) =>
      apply Forall_cons; split; [cbn; first [lia | done | intros ? [=]; done] | try done]
  | |- _ -> _ ∈ _ :: _ =>
      intros ?; first [congruence | apply elem_of_cons; auto]
  | |- _ ∈ _ :: _ <-> _ =>
      first [ apply elem_of_cons_other; [congruence | done]
            | apply elem_of_cons_here; done ]
  | |- _ => try done; try congruence
  end.

Lemma Inv_step_stop st st' spc ppc ws r :
  Inv st spc ppc ws -> step (stop_tid, r) st = Some st' ->
  exists ppc', Inv st' spc ppc' ws.
Proof.
  intros HI Hstep.
  destruct (step_at_point (stop_at) stop_tid r st st' ppc
              (stop_step (mem st) ppc))
    as (p' & mu' & sp & acts & Hres & ->);
    [rewrite (inv_threads _ _ _ _ HI); done | apply step_stop_at | done |].
  exists p'. clear Hstep.
  destruct HI as [Hth Hv Hrun Hc Hl Hs Hrv Hd Hcur Hj Hsp Hadd Hloc Hok Hown Htid Hrcv Hcl
                Hhdl Hent Hret Hsaw].
  destruct ppc; cbn in Hres; simplify_eq.
  - split; cbn; rewrite ?Hth; trace_side.
  - split; cbn; rewrite ?Hth; trace_side.
  - destruct (running (mem st) =? 0)%Z eqn:Hz; simplify_eq.
    apply Z.eqb_eq in Hz.
    split; cbn; rewrite ?Hth; trace_side.
    intros _. rewrite Hz in Hrun. destruct spc; done.
Qed.

Lemma Inv_step_start st st' spc ppc ws r :
  Inv st spc ppc ws -> step (start_tid, r) st = Some st' ->
  exists spc' ws', Inv st' spc' ppc ws'.
Proof.
  intros HI Hstep.
  destruct (step_at_point (start_at) start_tid r st st' spc
              (start_step (mem st) (length (threads st)) r spc))
    as (p' & mu' & sp & acts & Hres & ->);
    [rewrite (inv_threads _ _ _ _ HI); done | apply step_start_at | done |].
  clear Hstep.
  destruct HI as [Hth Hv Hrun Hc Hl Hs Hrv Hd Hcur Hj Hsp Hadd Hloc Hok Hown Htid Hrcv Hcl
                Hhdl Hent Hret Hsaw].
  destruct spc as [| | | | | | |v'|v'|e|msgs|wg msgs|wg [|m rest]];
    cbn in Hres; unfold add_counter in Hres; cbn in Hres.
  - (* SEnter *)
    destruct (running (mem st) + 1 <? 0)%Z; simplify_eq.
    exists SLoop, ws. split; cbn; rewrite ?Hth; trace_side.
    cbn in Hrun. lia.
  - (* SLoop *)
    simplify_eq. exists SPoll, ws. split; cbn; rewrite ?Hth; trace_side.
  - (* SPoll *)
    simplify_eq. destruct (cancelled (mem st)) eqn:Hcan.
    + exists SStopLog, ws. split; cbn; rewrite ?Hth; trace_side.
    + exists SLoad, ws. split; cbn; rewrite ?Hth; trace_side.
      intros ->. done.
  - (* SStopLog *)
    simplify_eq. exists SDeferred, ws. split; cbn; rewrite ?Hth; trace_side.
  - (* SDeferred *)
    destruct (running (mem st) + -1 <? 0)%Z; simplify_eq.
    exists SReturned, ws. split; cbn; rewrite ?Hth; trace_side.
    cbn in Hrun. lia.
  - (* SReturned *)
    discriminate.
  - (* SLoad *)
    simplify_eq. exists (SReceive (vars (mem st))), ws.
    split; cbn; rewrite ?Hth; trace_side.
  - (* SReceive *)
    simplify_eq. exists (SReceiving v), ws.
    split; cbn; rewrite ?Hth; trace_side.
  - (* SReceiving *)
    destruct r as [|derr|resp [e|]]; simplify_eq.
    + exists (SReceiveErr e), ws. split; cbn; rewrite ?Hth; trace_side.
    + destruct Hd as (pre & Hpre & Hlast). cbn in Hlast. rewrite app_nil_r in Hlast.
      assert (Hall : map wi_msg ws = delivered (trace st))
        by (rewrite delivered_split; congruence).
      specialize (Hj eq_refl).
      assert (Hnone : forall i w, ws !! i = Some w -> ended (wi_pc w) = false ->
                                  length (delivered (trace st)) <= i).
      { intros i w Hw He. rewrite Forall_lookup in Hj. rewrite (Hj i w Hw) in He. done. }
      unfold delivered in Hall, Hnone.
      destruct (Messages resp) as [|m ms] eqn:Hm.
      * exists SLoop, ws. split; cbn; rewrite ?Hth, ?Hm; trace_side.
        exists []. by rewrite app_nil_r.
      * exists (SRunNew (m :: ms)), ws. split; cbn; rewrite ?Hth, ?Hm; trace_side.
        exists []. by rewrite app_nil_r.
  - (* SReceiveErr *)
    simplify_eq. exists SLoop, ws. split; cbn; rewrite ?Hth; trace_side.
  - (* SRunNew *)
    simplify_eq. exists (SRunAdd (LocalWg (length (wait_groups (mem st)))) msgs), ws.
    split; cbn; rewrite ?Hth; trace_side.
    intros wg msgs0 [= <- <-]. cbn. by apply list_lookup_middle.
  - (* SRunAdd *)
    destruct wg as [|n]; [done|].
    pose proof (Hadd _ _ eq_refl) as Hzero. rewrite Hzero in Hres. cbn in Hres.
    rewrite !Z.add_0_l in Hres.
    destruct (Z.of_nat (length msgs) <? 0)%Z; simplify_eq.
    specialize (Hj eq_refl).
    exists (SRunSpawn (LocalWg n) msgs), ws. split; cbn; rewrite ?Hth; trace_side.
    intros wg0 [= <-]. split.
    + apply unfinished_0 in Hj. rewrite Hj, Nat.add_0_r. cbn.
      apply list_lookup_insert_eq. by eapply lookup_lt_Some.
    + eapply Forall_impl; [exact Hj|]. cbn. intros w ->. done.
  - (* SRunSpawn, at the wait *)
    destruct (Hsp wg eq_refl) as [Hcount Hwg]. rewrite Hcount in Hres. cbn in Hres.
    destruct (unfinished ws) eqn:Hun; simpl in Hres; simplify_eq.
    apply unfinished_0 in Hun.
    exists SLoop, ws. split; cbn; rewrite ?Hth; trace_side.
  - (* SRunSpawn, starting a goroutine *)
    simplify_eq. destruct (Hsp wg eq_refl) as [Hcount Hwg].
    destruct Hd as (pre & Hpre & Hlast). cbn in Hlast.
    exists (SRunSpawn wg rest),
           (ws ++ [{| wi_wg := wg; wi_msg := m; wi_pc := WStart |}]).
    split; cbn; rewrite ?Hth; trace_side.
    + rewrite map_app. reflexivity.
    + exists (pre ++ [m]). unfold earlier, last_batch in *. cbn.
      rewrite map_app, Hpre, Hlast, <- !app_assoc. done.
    + intros i w Hw He. apply lookup_app_Some in Hw as [Hw|[Hlen Hw]].
      * eapply Hcur; eauto.
      * unfold earlier in *. cbn.
        apply (f_equal length) in Hpre. rewrite length_map, length_app in Hpre. lia.
    + intros wg0 [= <-]. cbn in Hcount. rewrite unfinished_app. cbn. split.
      * rewrite Hcount. f_equal. lia.
      * apply Forall_app. split; [done|]. by apply Forall_singleton.
    + apply Forall_app. split; [done|]. by apply Forall_singleton.
    + intros i w Hw. apply lookup_app_Some in Hw as [Hw|[Hlen Hw]].
      * by apply Hown.
      * destruct (i - length ws) as [|k] eqn:Hk; [|by destruct k].
        cbn in Hw. inversion Hw; subst. cbn.
        eapply (actions_of_fresh _ (2 + length ws)); [done | lia].
    + eapply Forall_impl; [exact Htid|]. cbn. intros e He.
      rewrite length_app. cbn. lia.
Qed.

Lemma worker_step_shape mu r wg m pc pc' mu' sp acts :
  worker_step mu r wg m pc = Some (pc', mu', sp, acts) ->
  ended pc = false
  /\ (exists a, acts = [a] /\ worker_action a = true)
  /\ ((mu' = mu /\ ended pc' = false)
      \/ (exists d, pc = WWgDone d /\ pc' = WEnd d
                    /\ add_counter mu wg (-1) = Some mu')).
Proof.
  intros Hs. destruct pc as [| |e| | |e b|d|d]; cbn in Hs; simplify_eq;
    try (split; [done|]; split; [eexists; split; [reflexivity|done]|]; left; done).
  - split; [done|]. split; [eexists; split; [reflexivity|done]|]. left.
    split; [done|]. unfold after_handler.
    destruct (HandleMessage h m) as [[x|x|t i|n t]|]; done.
  - destruct r as [|derr|]; simplify_eq.
    split; [done|]. split; [eexists; split; [reflexivity|done]|]. left.
    split; [done|]. by destruct derr.
  - destruct (add_counter mu wg (-1)) as [mu''|] eqn:Hadd; simplify_eq.
    split; [done|]. split; [eexists; split; [reflexivity|done]|]. right.
    eauto.
Qed.

Lemma batches_worker_action t a tr :
  worker_action a = true -> batches ((t, a) :: tr) = batches tr.
Proof. destruct a; done. Qed.

Lemma map_msg_insert ws i w w' :
  ws !! i = Some w -> wi_msg w' = wi_msg w ->
  map wi_msg (<[i := w']> ws) = map wi_msg ws.
Proof.
  intros Hw Hm. change (wi_msg <$> <[i:=w']> ws = wi_msg <$> ws).
  rewrite list_fmap_insert, Hm. apply list_insert_id.
  by rewrite list_lookup_fmap, Hw.
Qed.

Lemma Inv_step_worker st st' spc ppc ws r i :
  Inv st spc ppc ws -> step (2 + i, r) st = Some st' ->
  exists ws', Inv st' spc ppc ws'.
Proof.
  intros HI Hstep.
  destruct (ws !! i) as [w|] eqn:Hw; cycle 1.
  { unfold step in Hstep. rewrite (inv_threads _ _ _ _ HI) in Hstep.
    change ((_ :: _ :: map worker_thread ws) !! (2 + i, r).1)
      with ((worker_thread <$> ws) !! i) in Hstep.
    rewrite list_lookup_fmap, Hw in Hstep. done. }
  destruct (step_at_point (worker_at (wi_wg w) (wi_msg w)) (2 + i) r st st'
              (wi_pc w)
              (worker_step (mem st) r (wi_wg w) (wi_msg w) (wi_pc w)))
    as (pc' & mu' & sp & acts & Hres & ->);
    [ rewrite (inv_threads _ _ _ _ HI);
      change ((_ :: _ :: map worker_thread ws) !! (2 + i))
        with ((worker_thread <$> ws) !! i);
      by rewrite list_lookup_fmap, Hw
    | apply step_worker_at | done |].
  clear Hstep.
  destruct HI as [Hth Hv Hrun Hc Hl Hs Hrv Hd Hcur Hj Hsp Hadd Hloc Hok Hown Htid Hrcv Hcl
                Hhdl Hent Hret Hsaw].
  destruct w as [wg m pc]. cbn in *.
  destruct (worker_step_shape _ _ _ _ _ _ _ _ _ Hres)
    as (Hpc & (a & -> & Ha) & Hmem).
  destruct (worker_step_events _ _ _ _ _ _ _ _ _ Hres) as (Hok' & -> & Hevs).
  { exact (Forall_lookup_1 _ _ _ _ Hok Hw). }
  destruct (spawning spc) as [wgS|] eqn:Hspawn; cycle 1.
  { specialize (Hj eq_refl). pose proof (Forall_lookup_1 _ _ _ _ Hj Hw) as He.
    cbn in He. congruence. }
  destruct (Hsp wgS eq_refl) as [Hcount Hwg].
  pose proof (Forall_lookup_1 _ _ _ _ Hwg Hw Hpc) as Hwgeq. cbn in Hwgeq. subst wgS.
  assert (Hlocal : wg <> Running) by (destruct spc; try done; cbn in Hspawn; congruence).
  assert (Hi : i < length ws) by (by eapply lookup_lt_Some).
  set (w' := {| wi_wg := wg; wi_msg := m; wi_pc := pc' |}).
  assert (Hmem' : vars mu' = vars (mem st) /\ running mu' = running (mem st)
                  /\ cancelled mu' = cancelled (mem st)
                  /\ counter mu' wg
                     = Some (Z.of_nat (length (pending spc) + unfinished (<[i := w']> ws)))).
  { pose proof (unfinished_insert ws i _ w' Hw) as Hun. cbn in Hun. rewrite Hpc in Hun.
    destruct Hmem as [[-> Hpc']|(d & -> & -> & Hadd')].
    - rewrite Hpc' in Hun. repeat split; try done. rewrite Hcount. f_equal. lia.
    - cbn in Hun. unfold add_counter in Hadd'. rewrite Hcount in Hadd'.
      destruct (_ <? 0)%Z eqn:Hneg in Hadd'; simplify_eq.
      destruct wg as [|n]; [done|]. repeat split; try done.
      erewrite (counter_set _ (LocalWg n)); [|exact Hcount]. f_equal. lia. }
  destruct Hmem' as (Hv' & Hrun' & Hc' & Hcount').
  exists (<[i := w']> ws).
  split; cbn; rewrite ?Hth, ?Hv', ?Hrun', ?Hc'; try done.
  - rewrite app_nil_r. cbn. f_equal. f_equal.
    change (<[i:=worker_thread w']> (worker_thread <$> ws)
            = worker_thread <$> <[i:=w']> ws).
    by rewrite list_fmap_insert.
  - unfold earlier, last_batch. rewrite batches_worker_action by done.
    rewrite (map_msg_insert _ _ _ _ Hw) by done. exact Hd.
  - unfold earlier. rewrite batches_worker_action by done.
    intros j wj Hj' He. destruct (decide (i = j)) as [<-|Hne].
    + eapply Hcur; [exact Hw|done].
    + rewrite list_lookup_insert_ne in Hj' by done. eapply Hcur; eauto.
  - congruence.
  - intros wg0 Hwg0. assert (wg0 = wg) as -> by congruence. split; [done|].
    apply Forall_insert; done.
  - intros wg0 msgs ->. done.
  - apply Forall_insert; done.
  - intros j wj Hj'. destruct (Nat.eqb_spec i j) as [<-|Hne].
    + rewrite list_lookup_insert_eq in Hj' by done. inversion Hj'; subst wj. cbn.
      rewrite Hevs, rev_app_distr. cbn. f_equal. exact (Hown _ _ Hw).
    + rewrite list_lookup_insert_ne in Hj' by done. by apply Hown.
  - rewrite length_insert. apply Forall_cons. split; [cbn; lia|done].
  - apply Forall_cons. split; [|done]. cbn. intros p ->. done.
  - intros Hcan. apply elem_of_cons. right. auto.
  - apply Forall_cons. split; [cbn; lia|done].
  - apply elem_of_cons_other; [unfold start_tid; congruence|done].
  - apply elem_of_cons_other; [unfold start_tid; congruence|done].
  - intros Hlv. apply elem_of_cons. right. auto.
Qed.

Lemma Inv_step c st st' spc ppc ws :
  Inv st spc ppc ws -> step c st = Some st' ->
  exists spc' ppc' ws', Inv st' spc' ppc' ws'.
Proof.
  intros HI Hstep. destruct c as [[|[|i]] r].
  - destruct (Inv_step_start _ _ _ _ _ _ HI Hstep) as (spc' & ws' & HI'). eauto.
  - destruct (Inv_step_stop _ _ _ _ _ _ HI Hstep) as (ppc' & HI'). eauto.
  - destruct (Inv_step_worker _ _ _ _ _ _ _ HI Hstep) as (ws' & HI'). eauto.
Qed.

Lemma Inv_exec cs : forall st st' spc ppc ws,
  Inv st spc ppc ws -> exec cs st = Some st' ->
  exists spc' ppc' ws', Inv st' spc' ppc' ws'.
Proof.
  induction cs as [|c cs IH]; intros st st' spc ppc ws HI Hex; cbn in Hex.
  - inversion Hex; subst. eauto.
  - destruct (step c st) as [st1|] eqn:Hstep; [|discriminate].
    destruct (Inv_step _ _ _ _ _ _ HI Hstep) as (spc1 & ppc1 & ws1 & HI1).
    eapply IH; eauto.
Qed.

(** Every state of an execution satisfies the invariant. *)
Lemma reachable_Inv st :
  reachable s h v st -> exists spc ppc ws, Inv st spc ppc ws.
Proof. intros [cs Hex]. eapply Inv_exec; [apply Inv_init|exact Hex]. Qed.

(** ** Reading the invariant *)
Lemma finished_worker_at wg m pc : finished (worker_at wg m pc) = ended pc.
Proof. destruct pc; done. Qed.

Lemma finished_start_at pc : finished (start_at pc) = returned pc.
Proof. destruct pc as [| | | | | | |v'|v'|e|msgs|wg msgs|wg [|m rest]]; done. Qed.

Lemma finished_stop_at pc :
  finished (stop_at pc) = match pc with PReturned => true | _ => false end.
Proof. destruct pc; done. Qed.

Lemma workers_Inv st spc ppc ws :
  Inv st spc ppc ws -> workers st = map worker_thread ws.
Proof. intros HI. unfold workers. by rewrite (inv_threads _ _ _ _ HI). Qed.

Lemma elem_of_actions_of tid a tr : (tid, a) ∈ tr <-> a ∈ actions_of tid tr.
Proof.
  induction tr as [|[t b] tr IH]; cbn.
  - split; intros H; by apply elem_of_nil in H.
  - rewrite elem_of_cons. destruct (Nat.eqb_spec t tid) as [->|Hne].
    + rewrite elem_of_cons, <- IH. split; intros [H|H]; auto; left; congruence.
    + rewrite <- IH. split; [intros [H|H]; [congruence|done]|auto].
Qed.

Lemma actions_of_app tid tr1 tr2 :
  actions_of tid (tr1 ++ tr2) = actions_of tid tr1 ++ actions_of tid tr2.
Proof.
  induction tr1 as [|[t a] tr1 IH]; cbn; [done|].
  destruct (Nat.eqb t tid); cbn; by rewrite IH.
Qed.

Lemma deletes_of_actions tid tr : deletes_of tid tr = delete_calls (actions_of tid tr).
Proof.
  induction tr as [|[t a] tr IH]; cbn; [done|].
  destruct a; cbn; destruct (Nat.eqb t tid); cbn; by rewrite ?IH.
Qed.

Lemma delete_calls_app l1 l2 :
  delete_calls (l1 ++ l2) = delete_calls l1 ++ delete_calls l2.
Proof.
  induction l1 as [|a l1 IH]; cbn; [done|]. destruct a; cbn; by rewrite IH.
Qed.

Lemma delete_calls_rev l : delete_calls (rev l) = rev (delete_calls l).
Proof.
  induction l as [|a l IH]; cbn; [done|].
  rewrite delete_calls_app, IH. destruct a; cbn; by rewrite ?app_nil_r.
Qed.

Lemma delete_calls_before_delete m : delete_calls (before_delete m) = [].
Proof. unfold before_delete. cbn. by destruct (HandleMessage h m). Qed.

Lemma elem_of_rev_list {A} (x : A) (l : list A) : x ∈ rev l <-> x ∈ l.
Proof. rewrite !list_elem_of_In. symmetry. apply in_rev. Qed.

(** The goroutine behind an action on a message. *)
Lemma worker_view st spc ppc ws tid a :
  Inv st spc ppc ws -> (tid, a) ∈ trace st -> handling_action a = true ->
  exists i w, tid = 2 + i /\ ws !! i = Some w
              /\ a ∈ worker_events (wi_wg w) (wi_msg w) (wi_pc w).
Proof.
  intros HI Hin Ha.
  pose proof (inv_handling _ _ _ _ HI) as Hh.
  pose proof (inv_tids _ _ _ _ HI) as Ht.
  rewrite Forall_forall in Hh, Ht.
  specialize (Hh _ Hin Ha). specialize (Ht _ Hin). cbn in Hh, Ht.
  destruct (lookup_lt_is_Some_2 ws (tid - 2)) as [w Hw]; [lia|].
  exists (tid - 2), w. split; [lia|]. split; [done|].
  apply elem_of_actions_of in Hin.
  replace tid with (2 + (tid - 2)) in Hin by lia.
  rewrite (inv_own _ _ _ _ HI _ _ Hw) in Hin.
  exact (proj1 (elem_of_rev_list _ _) Hin).
Qed.

(** The goroutine of a thread id. *)
Lemma worker_lookup st spc ppc ws i t :
  Inv st spc ppc ws -> threads st !! (2 + i) = Some t ->
  exists w, ws !! i = Some w /\ t = worker_thread w.
Proof.
  intros HI Ht. rewrite (inv_threads _ _ _ _ HI) in Ht.
  change ((worker_thread <$> ws) !! i = Some t) in Ht.
  rewrite list_lookup_fmap in Ht.
  destruct (ws !! i) as [w|]; cbn in Ht; [|done].
  inversion Ht; subst. eauto.
Qed.

Ltac events_members :=
  unfold reported, deleted, before_delete, handled;
  rewrite ?elem_of_app, ?elem_of_cons, ?elem_of_nil.

Lemma handler_called_events wg m pc m' :
  HandlerCalled m' ∈ worker_events wg m pc -> m' = m.
Proof.
  destruct pc as [| |e| | |e [|]|[[d|]|]|[[d|]|]]; cbn; events_members;
    destruct (HandleMessage h m); events_members; intuition congruence.
Qed.

Lemma handler_returned_events wg m pc m' err :
  HandlerReturned m' err ∈ worker_events wg m pc ->
  m' = m /\ err = HandleMessage h m.
Proof.
  destruct pc as [| |e| | |e [|]|[[d|]|]|[[d|]|]]; cbn; events_members;
    destruct (HandleMessage h m); events_members; intuition congruence.
Qed.

Lemma delete_returned_events wg m pc p derr :
  DeleteReturned p derr ∈ worker_events wg m pc ->
  p = delete_params s m
  /\ match pc with
     | WLogErr e true => derr = Some e
     | WWgDone (Some d) | WEnd (Some d) => derr = d
     | _ => False
     end.
Proof.
  destruct pc as [| |e| | |e [|]|[[d|]|]|[[d|]|]]; cbn; events_members;
    destruct (HandleMessage h m); events_members; intuition congruence.
Qed.

Lemma worker_deletes wg m pc :
  delete_calls (worker_events wg m pc)
  = if has_deleted pc then [delete_params s m] else [].
Proof.
  destruct pc as [| |e| | |e [|]|[[d|]|]|[[d|]|]]; cbn;
    unfold reported, deleted, before_delete; rewrite ?delete_calls_app;
    destruct (HandleMessage h m); done.
Qed.

(** A goroutine that has called delete did so once, after the handler
    had returned. *)
Lemma worker_events_deleted wg m pc :
  has_deleted pc = true ->
  exists after,
    worker_events wg m pc
    = before_delete m ++ DeleteCalled (delete_params s m) :: after
    /\ delete_calls after = [].
Proof.
  destruct pc as [| |e| | |e [|]|[[d|]|]|[[d|]|]]; cbn; try done; intros _;
    unfold reported, deleted; rewrite <- ?app_assoc; cbn; eexists; split;
    try reflexivity; done.
Qed.

Lemma worker_ok_ended m pc :
  worker_ok m pc -> ended pc = true ->
  has_deleted pc = negb (transient (HandleMessage h m)).
Proof.
  destruct pc as [| |e| | |e [|]|[[d|]|]|[[d|]|]]; cbn; try done;
    intros ->; done.
Qed.

Lemma worker_ok_transient m pc :
  worker_ok m pc -> transient (HandleMessage h m) = true -> has_deleted pc = false.
Proof.
  destruct pc as [| |e| | |e [|]|[[d|]|]|[[d|]|]]; cbn; try done; try congruence.
Qed.

(** The goroutine whose handler call has returned. *)
Lemma delivery_view st tid m err :
  reachable s h v st -> (tid, HandlerReturned m err) ∈ trace st ->
  exists wg pc,
    threads st !! tid = Some (worker_at wg m pc)
    /\ err = HandleMessage h m
    /\ worker_ok m pc
    /\ actions_of tid (trace st) = rev (worker_events wg m pc)
    /\ 2 <= tid.
Proof.
  intros Hr Hin. destruct (reachable_Inv _ Hr) as (spc & ppc & ws & HI).
  destruct (worker_view _ _ _ _ _ _ HI Hin eq_refl) as (i & [wg m' pc] & -> & Hw & Hev).
  cbn in Hev. apply handler_returned_events in Hev as [-> ->].
  exists wg, pc. split; [|split; [done|split; [|split; [|lia]]]].
  - rewrite (inv_threads _ _ _ _ HI).
    change ((worker_thread <$> ws) !! i = Some (worker_at wg m' pc)).
    by rewrite list_lookup_fmap, Hw.
  - exact (Forall_lookup_1 _ _ _ _ (inv_ok _ _ _ _ HI) Hw).
  - exact (inv_own _ _ _ _ HI _ _ Hw).
Qed.

(** The delete calls of a goroutine, from its program point. *)
Lemma deletes_of_worker tid tr wg m pc :
  actions_of tid tr = rev (worker_events wg m pc) ->
  deletes_of tid tr = if has_deleted pc then [delete_params s m] else [].
Proof.
  intros Hown. rewrite deletes_of_actions, Hown, delete_calls_rev, worker_deletes.
  by destruct (has_deleted pc).
Qed.

Lemma elem_of_delete_calls p acts : DeleteCalled p ∈ acts -> p ∈ delete_calls acts.
Proof.
  induction acts as [|a acts IH]; intros Hin.
  - by apply elem_of_nil in Hin.
  - apply elem_of_cons in Hin as [<-|Hin]; cbn.
    + apply elem_of_cons. by left.
    + destruct a; auto. apply elem_of_cons. right. auto.
Qed.

Lemma delete_called_events wg m pc p :
  DeleteCalled p ∈ worker_events wg m pc ->
  has_deleted pc = true /\ p = delete_params s m.
Proof.
  intros Hin. apply elem_of_delete_calls in Hin. rewrite worker_deletes in Hin.
  destruct (has_deleted pc).
  - apply elem_of_cons in Hin as [->|Hin]; [done|]. by apply elem_of_nil in Hin.
  - by apply elem_of_nil in Hin.
Qed.

(** A list of actions with one delete call splits at it in one way. *)
Lemma split_at_delete (xs ys before after : list action) p p' :
  xs ++ DeleteCalled p :: ys = before ++ DeleteCalled p' :: after ->
  delete_calls before = [] -> delete_calls after = [] ->
  xs = before /\ p = p' /\ ys = after.
Proof.
  revert xs. induction before as [|b before IH]; intros [|x xs] Heq Hb Ha;
    cbn in Heq; simplify_eq.
  - done.
  - rewrite delete_calls_app in Ha. cbn in Ha.
    by destruct (delete_calls xs).
  - destruct (IH xs) as (-> & -> & ->); try done.
    cbn in Hb. by destruct b.
Qed.

(** The state of [Start] after a step that is seen in the trace. *)
Lemma start_step_inv st spc ppc ws r st' a :
  Inv st spc ppc ws -> step (start_tid, r) st = Some st' ->
  trace st' = (start_tid, a) :: trace st ->
  exists spc' mu' sp,
    start_step (mem st) (length (threads st)) r spc = Some (spc', mu', sp, [a])
    /\ threads st' = <[start_tid := start_at spc']> (threads st) ++ sp
    /\ mem st' = mu'.
Proof.
  intros HI Hstep Htr.
  destruct (step_at_point (start_at) start_tid r st st' spc
              (start_step (mem st) (length (threads st)) r spc))
    as (p' & mu' & sp & acts & Hres & ->);
    [rewrite (inv_threads _ _ _ _ HI); done | apply step_start_at | done |].
  cbn in Htr. change ((start_tid, a) :: trace st) with ([(start_tid, a)] ++ trace st) in Htr.
  apply app_inv_tail in Htr. apply (f_equal (@rev _)) in Htr.
  rewrite rev_involutive in Htr. cbn in Htr.
  destruct acts as [|b [|c acts]]; cbn in Htr; simplify_eq.
  exists p', mu', sp. done.
Qed.

(** When [run] returns, [Start] goes on with its loop. *)
Lemma loop_resumes_after_join st r st' wg :
  reachable s h v st -> step (start_tid, r) st = Some st' ->
  trace st' = (start_tid, WaitGroupWaited wg) :: trace st ->
  threads st' !! start_tid = Some (Ready (Start_loop s h)).
Proof.
  intros Hr Hstep Htr. destruct (reachable_Inv _ Hr) as (spc & ppc & ws & HI).
  destruct (start_step_inv _ _ _ _ _ _ _ HI Hstep Htr)
    as (spc' & mu' & sp & Hres & Hth & _).
  rewrite Hth, (inv_threads _ _ _ _ HI).
  destruct spc as [| | | | | | |v'|v'|e|msgs|wg' msgs|wg' [|m rest]];
    cbn in Hres; unfold add_counter in Hres; cbn in Hres;
    repeat case_match; simplify_eq; done.
Qed.

(** The state of [Stop] after a step that is seen in the trace. *)
Lemma stop_step_inv st spc ppc ws r st' a :
  Inv st spc ppc ws -> step (stop_tid, r) st = Some st' ->
  trace st' = (stop_tid, a) :: trace st ->
  exists ppc' mu',
    stop_step (mem st) ppc = Some (ppc', mu', [], [a]).
Proof.
  intros HI Hstep Htr.
  destruct (step_at_point (stop_at) stop_tid r st st' ppc
              (stop_step (mem st) ppc))
    as (p' & mu' & sp & acts & Hres & ->);
    [rewrite (inv_threads _ _ _ _ HI); done | apply step_stop_at | done |].
  cbn in Htr. change ((stop_tid, a) :: trace st) with ([(stop_tid, a)] ++ trace st) in Htr.
  apply app_inv_tail in Htr. apply (f_equal (@rev _)) in Htr.
  rewrite rev_involutive in Htr. cbn in Htr.
  destruct acts as [|b [|c acts]]; cbn in Htr; simplify_eq.
  exists p', mu'. rewrite Hres. f_equal.
  destruct ppc; cbn in Hres; repeat case_match; simplify_eq; done.
Qed.

Lemma start_active_entered pc : start_active pc = entered pc && negb (returned pc).
Proof. by destruct pc. Qed.

Lemma all_finished ws :
  Forall (fun w => ended (wi_pc w) = true) ws ->
  Forall (fun t => finished t = true) (map worker_thread ws).
Proof.
  intros Hf. apply Forall_fmap. eapply Forall_impl; [exact Hf|].
  intros w Hw. cbn. unfold worker_thread. by rewrite finished_worker_at.
Qed.

Lemma unfinished_lookup ws i w :
  ws !! i = Some w -> ended (wi_pc w) = false -> 1 <= unfinished ws.
Proof.
  revert i. induction ws as [|x ws IH]; intros [|i] Hw He; cbn in *; try done.
  - inversion Hw; subst. rewrite He. lia.
  - specialize (IH _ Hw He). lia.
Qed.

(** A goroutine of a message that has not finished can take a step: it is
    never blocked, and its [wg.Done()] does not panic.  Only a pending
    delete call needs the transport to answer. *)
Lemma worker_progress st tid t :
  reachable s h v st -> 2 <= tid ->
  threads st !! tid = Some t -> finished t = false ->
  exists r st', step (tid, r) st = Some st'.
Proof.
  intros Hr Htid Ht Hfin. destruct (reachable_Inv _ Hr) as (spc & ppc & ws & HI).
  replace tid with (2 + (tid - 2)) in * by lia.
  destruct (worker_lookup _ _ _ _ _ _ HI Ht) as ([wg m pc] & Hw & ->).
  unfold worker_thread in Hfin. cbn in Hfin. rewrite finished_worker_at in Hfin.
  assert (Hcount : exists c, counter (mem st) wg = Some c /\ (1 <= c)%Z).
  { destruct (spawning spc) as [wgS|] eqn:Hspawn.
    - destruct (inv_spawning _ _ _ _ HI _ Hspawn) as [Hc Hwg].
      pose proof (Forall_lookup_1 _ _ _ _ Hwg Hw Hfin) as Heq. cbn in Heq. subst wgS.
      pose proof (unfinished_lookup _ _ _ Hw Hfin).
      eexists. split; [exact Hc|]. lia.
    - pose proof (Forall_lookup_1 _ _ _ _ (inv_joined _ _ _ _ HI Hspawn) Hw) as He.
      cbn in He. congruence. }
  destruct Hcount as (c & Hc & Hpos).
  exists (DeleteResult None). unfold step. cbn [fst snd]. rewrite Ht.
  unfold worker_thread. cbn [wi_wg wi_msg wi_pc]. rewrite step_worker_at.
  destruct pc as [| |x| | |x b|d|d]; cbn; unfold add_counter; rewrite ?Hc;
    try (eexists; reflexivity); try done.
  destruct (c + -1 <? 0)%Z eqn:Hneg; [lia|]. eexists; reflexivity.
Qed.

End Service.

(** ** The claims *)

(** C1.  A message whose handler returns a non-nil error that is not an
    [InvalidMessageError] is never deleted by the goroutine of that
    delivery, in no state of no execution; that goroutine can always go on
    until it has finished; and once it has finished, it has logged the
    error. *)
Theorem transient_failure_is_not_deleted s h v st tid m e :
  reachable s h v st ->
  (tid, HandlerReturned m (Some e)) ∈ trace st ->
  assert_InvalidMessageError (Some e) = None ->
  deletes_of tid (trace st) = []
  /\ (forall t, threads st !! tid = Some t -> finished t = false ->
                exists r st', step (tid, r) st = Some st')
  /\ (forall t, threads st !! tid = Some t -> finished t = true ->
                (tid, Logged (Error e)) ∈ trace st).
Proof.
  intros Hr Hin Hassert.
  destruct (delivery_view _ _ _ _ _ _ _ Hr Hin) as (wg & pc & Ht & Herr & Hok & Hown & Htid).
  assert (Htr : transient (HandleMessage h m) = true).
  { rewrite <- Herr. unfold transient. by rewrite Hassert. }
  pose proof (worker_ok_transient _ _ _ Hok Htr) as Hdel.
  split; [|split].
  - rewrite (deletes_of_worker _ _ _ _ _ _ _ Hown), Hdel. done.
  - intros t Ht' Hfin. exact (worker_progress _ _ _ _ _ _ Hr Htid Ht' Hfin).
  - intros t Ht' Hfin. rewrite Ht in Ht'. inversion Ht'; subst t.
    rewrite finished_worker_at in Hfin.
    apply elem_of_actions_of. rewrite Hown. apply elem_of_rev_list.
    destruct pc as [| |x| | |x b|[d|]|[d|]]; try done; cbn in Hok; try congruence.
    cbn. unfold before_delete. rewrite <- Herr.
    apply list_elem_of_In. cbn. tauto.
Qed.

Lemma transient_failure_is_not_deleted_witness :
  reachable demo_service demo_handler default_vars demo_state
  /\ (4, HandlerReturned (demo_message "tmp") (Some demo_failure)) ∈ trace demo_state
  /\ assert_InvalidMessageError (Some demo_failure) = None
  /\ deletes_of 4 (trace demo_state) = []
  /\ (4, Logged (Error demo_failure)) ∈ trace demo_state.
Proof.
  assert (H1 : reachable demo_service demo_handler default_vars demo_state)
    by (exists demo_schedule; vm_compute; reflexivity).
  assert (H2 : (4, HandlerReturned (demo_message "tmp") (Some demo_failure))
               ∈ trace demo_state)
    by (apply (list_elem_of_lookup_2 _ 17); vm_compute; reflexivity).
  assert (H3 : assert_InvalidMessageError (Some demo_failure) = None)
    by reflexivity.
  destruct (transient_failure_is_not_deleted _ _ _ _ _ _ _ H1 H2 H3)
    as (Hdel & _ & Hlog).
  split; [exact H1|]. split; [exact H2|]. split; [exact H3|].
  split; [exact Hdel|].
  exact (Hlog (Ready (Ret tt)) eq_refl eq_refl).
Defined.

(** C2.  When the handler returns nil or an [InvalidMessageError], the
    goroutine of that delivery can always go on until it has finished, and
    once finished it has issued exactly one delete call, with the receipt
    handle of the message, and has logged the [InvalidMessageError]; and
    when [run] hands control back to [Start], [Start] goes on with its loop:
    no error of a handler reaches it. *)
Theorem processed_message_is_deleted_once s h v st tid m err :
  reachable s h v st ->
  (tid, HandlerReturned m err) ∈ trace st ->
  err = None \/ (exists d, err = Some (ErrInvalidMessage d)) ->
  (forall t, threads st !! tid = Some t -> finished t = false ->
             exists r st', step (tid, r) st = Some st')
  /\ (forall t, threads st !! tid = Some t -> finished t = true ->
        deletes_of tid (trace st) = [delete_params s m]
        /\ (forall e, err = Some e -> (tid, Logged (Error e)) ∈ trace st))
  /\ del_ReceiptHandle (delete_params s m) = ReceiptHandle m
  /\ (forall r st' wg,
        step (start_tid, r) st = Some st' ->
        trace st' = (start_tid, WaitGroupWaited wg) :: trace st ->
        threads st' !! start_tid = Some (Ready (Start_loop s h))).
Proof.
  intros Hr Hin Herr.
  destruct (delivery_view _ _ _ _ _ _ _ Hr Hin)
    as (wg & pc & Ht' & Heq & Hok & Hown & Htid).
  assert (Htr : transient (HandleMessage h m) = false).
  { rewrite <- Heq. destruct Herr as [->|[d ->]]; done. }
  split; [|split; [|split; [done|]]].
  - intros t Ht Hfin. exact (worker_progress _ _ _ _ _ _ Hr Htid Ht Hfin).
  - intros t Ht Hfin. rewrite Ht in Ht'. inversion Ht'; subst t.
    rewrite finished_worker_at in Hfin.
    pose proof (worker_ok_ended _ _ _ Hok Hfin) as Hdel. rewrite Htr in Hdel.
    split.
    + rewrite (deletes_of_worker _ _ _ _ _ _ _ Hown), Hdel. done.
    + intros e ->. apply elem_of_actions_of. rewrite Hown. apply elem_of_rev_list.
      destruct pc as [| |x| | |x b|[d|]|[d|]]; try done.
      cbn. apply list_elem_of_In. rewrite in_app_iff. left.
      destruct d as [de|]; cbn; unfold deleted, before_delete;
        rewrite <- Heq, !in_app_iff; cbn; tauto.
  - intros r st' wg' Hs Htr'.
    exact (loop_resumes_after_join _ _ _ _ _ _ _ Hr Hs Htr').
Qed.

Lemma processed_message_is_deleted_once_witness :
  reachable demo_service demo_handler default_vars demo_state
  /\ (3, HandlerReturned (demo_message "bad") (Some demo_invalid)) ∈ trace demo_state
  /\ deletes_of 3 (trace demo_state) = [delete_params demo_service (demo_message "bad")]
  /\ (3, Logged (Error demo_invalid)) ∈ trace demo_state.
Proof.
  assert (H1 : reachable demo_service demo_handler default_vars demo_state)
    by (exists demo_schedule; vm_compute; reflexivity).
  assert (H2 : (3, HandlerReturned (demo_message "bad") (Some demo_invalid))
               ∈ trace demo_state)
    by (apply (list_elem_of_lookup_2 _ 18); vm_compute; reflexivity).
  assert (H3 : Some demo_invalid = None
               \/ (exists d, Some demo_invalid = Some (ErrInvalidMessage d)))
    by (right; eexists; reflexivity).
  assert (H4 : threads demo_state !! 3 = Some (Ready (Ret tt)))
    by (vm_compute; reflexivity).
  destruct (processed_message_is_deleted_once _ _ _ _ _ _ _ H1 H2 H3)
    as (_ & Hend & _).
  destruct (Hend _ H4 eq_refl) as [Hd Hlog].
  split; [exact H1|]. split; [exact H2|]. split; [exact Hd|].
  exact (Hlog _ eq_refl).
Defined.

(** C3.  In every state of every execution, a goroutine has issued at most
    one delete call; and whenever a delete call appears in the trace, the
    handler call of the same goroutine was made and had returned before it
    ([pre] holds what happened before the delete call). *)
Theorem delete_at_most_once_after_handler s h v st tid :
  reachable s h v st ->
  length (deletes_of tid (trace st)) <= 1
  /\ (forall post p pre,
        trace st = post ++ (tid, DeleteCalled p) :: pre ->
        exists m,
          p = delete_params s m
          /\ (tid, HandlerCalled m) ∈ pre
          /\ (tid, HandlerReturned m (HandleMessage h m)) ∈ pre
          /\ deletes_of tid pre = []).
Proof.
  intros Hr. destruct (reachable_Inv _ _ _ _ Hr) as (spc & ppc & ws & HI).
  assert (Hview : forall p, (tid, DeleteCalled p) ∈ trace st ->
            exists wg m pc,
              actions_of tid (trace st) = rev (worker_events s h wg m pc)
              /\ has_deleted pc = true /\ p = delete_params s m).
  { intros p Hin.
    destruct (worker_view _ _ _ _ _ _ _ _ _ HI Hin eq_refl)
      as (i & [wg m pc] & -> & Hw & Hev).
    cbn in Hev. apply delete_called_events in Hev as [Hdel ->].
    exists wg, m, pc. split; [|done]. exact (inv_own _ _ _ _ _ _ _ HI _ _ Hw). }
  split.
  - destruct (deletes_of tid (trace st)) as [|p ps] eqn:Hds; [cbn; lia|].
    assert (Hin : (tid, DeleteCalled p) ∈ trace st).
    { apply elem_of_actions_of. rewrite deletes_of_actions in Hds.
      clear -Hds. revert p ps Hds.
      induction (actions_of tid (trace st)) as [|a l IH]; intros p ps Hds;
        [done|].
      destruct a; cbn in Hds; simplify_eq;
        try (apply elem_of_cons; right; eapply IH; done).
      apply elem_of_cons. by left. }
    destruct (Hview p Hin) as (wg & m & pc & Hown & Hdel & ->).
    rewrite (deletes_of_worker _ _ _ _ _ _ _ Hown), Hdel in Hds.
    inversion Hds. cbn. lia.
  - intros post p pre Htr.
    assert (Hin : (tid, DeleteCalled p) ∈ trace st).
    { rewrite Htr. apply elem_of_app. right. apply elem_of_cons. by left. }
    destruct (Hview p Hin) as (wg & m & pc & Hown & Hdel & ->).
    destruct (worker_events_deleted s h wg m pc Hdel) as (after & Hev & Hafter).
    rewrite Htr, actions_of_app in Hown.
    change (actions_of tid ((tid, DeleteCalled (delete_params s m)) :: pre))
      with (if Nat.eqb tid tid
            then DeleteCalled (delete_params s m) :: actions_of tid pre
            else actions_of tid pre) in Hown.
    rewrite Nat.eqb_refl, Hev, rev_app_distr in Hown.
    change (rev (DeleteCalled (delete_params s m) :: after))
      with (rev after ++ [DeleteCalled (delete_params s m)]) in Hown.
    rewrite <- app_assoc in Hown.
    apply (split_at_delete _ _ (rev after) (rev (before_delete h m))) in Hown
      as (_ & _ & Hpre).
    + exists m. split; [done|].
      rewrite !elem_of_actions_of, deletes_of_actions, Hpre, delete_calls_rev,
        delete_calls_before_delete.
      split; [|split; [|done]]; apply elem_of_rev_list, list_elem_of_In;
        unfold before_delete; cbn; tauto.
    + by rewrite delete_calls_rev, Hafter.
    + by rewrite delete_calls_rev, delete_calls_before_delete.
Qed.

Lemma delete_at_most_once_after_handler_witness :
  reachable demo_service demo_handler default_vars demo_state
  /\ length (deletes_of 2 (trace demo_state)) <= 1
  /\ exists m, (2, HandlerReturned m (HandleMessage demo_handler m))
               ∈ drop 17 (trace demo_state).
Proof.
  assert (H1 : reachable demo_service demo_handler default_vars demo_state)
    by (exists demo_schedule; vm_compute; reflexivity).
  destruct (delete_at_most_once_after_handler _ _ _ _ 2 H1) as [Hle Hord].
  split; [exact H1|]. split; [exact Hle|].
  destruct (Hord (take 16 (trace demo_state))
                 (delete_params demo_service (demo_message "ok"))
                 (drop 17 (trace demo_state)) eq_refl)
    as (m & _ & _ & Hm & _).
  exists m. exact Hm.
Defined.

(** C8.  When the delete call of a goroutine fails, the goroutine logs the
    error of the delete call and returns: what it did, newest first, is its
    [wg.Done()], the log line, the failed delete call, and before it no
    other delete call.  The message is not acknowledged: the goroutine made
    that one delete call only.  When [run] returns, [Start] goes on with
    its loop: the error does not leave the goroutine. *)
Theorem failed_delete_is_only_logged s h v st tid p e t :
  reachable s h v st ->
  (tid, DeleteReturned p (Some e)) ∈ trace st ->
  threads st !! tid = Some t -> finished t = true ->
  (exists wg older,
      actions_of tid (trace st)
      = WaitGroupAdded wg (-1) :: Logged (Error e)
          :: DeleteReturned p (Some e) :: DeleteCalled p :: older
      /\ delete_calls older = [])
  /\ deletes_of tid (trace st) = [p]
  /\ (forall r st' wg,
        step (start_tid, r) st = Some st' ->
        trace st' = (start_tid, WaitGroupWaited wg) :: trace st ->
        threads st' !! start_tid = Some (Ready (Start_loop s h))).
Proof.
  intros Hr Hin Ht Hfin.
  destruct (reachable_Inv _ _ _ _ Hr) as (spc & ppc & ws & HI).
  destruct (worker_view _ _ _ _ _ _ _ _ _ HI Hin eq_refl)
    as (i & [wg m pc] & -> & Hw & Hev).
  cbn in Hev. apply delete_returned_events in Hev as [-> Hpc].
  destruct (worker_lookup _ _ _ _ _ _ _ _ _ HI Ht) as (w' & Hw' & ->).
  rewrite Hw in Hw'. inversion Hw'; subst w'.
  unfold worker_thread in Hfin. cbn in Hfin. rewrite finished_worker_at in Hfin.
  pose proof (inv_own _ _ _ _ _ _ _ HI _ _ Hw) as Hown.
  cbn [wi_wg wi_msg wi_pc] in Hown.
  destruct pc as [| |x| | |x b|[d|]|[d|]]; try done. subst d.
  split; [|split].
  - exists wg, (rev (before_delete h m)). split.
    + rewrite Hown. cbn. unfold deleted.
      rewrite !rev_app_distr. reflexivity.
    + by rewrite delete_calls_rev, delete_calls_before_delete.
  - rewrite (deletes_of_worker _ _ _ _ _ _ _ Hown). done.
  - intros r st' wg' Hs Htr'.
    exact (loop_resumes_after_join _ _ _ _ _ _ _ Hr Hs Htr').
Qed.

Lemma failed_delete_is_only_logged_witness :
  reachable demo_service demo_handler default_vars demo_state
  /\ (3, DeleteReturned (delete_params demo_service (demo_message "bad"))
           (Some demo_delete_failure)) ∈ trace demo_state
  /\ deletes_of 3 (trace demo_state)
     = [delete_params demo_service (demo_message "bad")].
Proof.
  assert (H1 : reachable demo_service demo_handler default_vars demo_state)
    by (exists demo_schedule; vm_compute; reflexivity).
  assert (H2 : (3, DeleteReturned (delete_params demo_service (demo_message "bad"))
                     (Some demo_delete_failure)) ∈ trace demo_state)
    by (apply (list_elem_of_lookup_2 _ 10); vm_compute; reflexivity).
  assert (H3 : threads demo_state !! 3 = Some (Ready (Ret tt)))
    by (vm_compute; reflexivity).
  destruct (failed_delete_is_only_logged _ _ _ _ _ _ _ _ H1 H2 H3 eq_refl)
    as (_ & Hd & _).
  split; [exact H1|]. split; [exact H2|]. exact Hd.
Defined.

(** C4.  [run] starts one goroutine per message of the batch and returns
    when all of them have finished, and the receive calls come between
    batches.  In every state of every execution:
    - there are never more goroutines than messages received, and the
      goroutine number [i] handles the message number [i];
    - a goroutine that has not finished belongs to the newest batch, so
      goroutines of two batches are never active together;
    - at the step where [wg.Wait()] returns in [run], and at the step where
      [Start] issues a receive call, every message received so far has had
      its goroutine (the newest batch of [k] messages has had [k]) and all
      the goroutines have finished. *)
Theorem batches_run_one_at_a_time s h v st :
  reachable s h v st ->
  length (workers st) <= length (delivered (trace st))
  /\ (forall i m, (2 + i, HandlerCalled m) ∈ trace st ->
                  delivered (trace st) !! i = Some m)
  /\ (forall i t, workers st !! i = Some t -> finished t = false ->
                  length (earlier (trace st)) <= i)
  /\ (forall r st' a,
        step (start_tid, r) st = Some st' ->
        trace st' = (start_tid, a) :: trace st ->
        (exists wg, a = WaitGroupWaited wg) \/ (exists p, a = ReceiveCalled p) ->
        length (workers st)
        = length (earlier (trace st)) + length (last_batch (trace st))
        /\ Forall (fun t => finished t = true) (workers st)).
Proof.
  intros Hr. destruct (reachable_Inv _ _ _ _ Hr) as (spc & ppc & ws & HI).
  rewrite (workers_Inv _ _ _ _ _ _ _ HI).
  destruct (inv_delivered _ _ _ _ _ _ _ HI) as (pre & Hpre & Hlast).
  assert (Hall : delivered (trace st) = map wi_msg ws ++ pending spc).
  { rewrite delivered_split, Hpre, Hlast. by rewrite app_assoc. }
  assert (Hdone : Forall (fun w => ended (wi_pc w) = true) ws ->
                  Forall (fun t => finished t = true) (map (worker_thread s h) ws)).
  { intros Hf. apply Forall_fmap. eapply Forall_impl; [exact Hf|].
    intros w Hw. cbn. unfold worker_thread. by rewrite finished_worker_at. }
  split; [|split; [|split]].
  - rewrite Hall, length_app, !length_map. lia.
  - intros i m Hin.
    destruct (worker_view _ _ _ _ _ _ _ _ _ HI Hin eq_refl)
      as (j & w & Hj & Hw & Hev).
    assert (j = i) as -> by lia.
    apply handler_called_events in Hev as ->.
    rewrite Hall. apply lookup_app_l_Some.
    change ((wi_msg <$> ws) !! i = Some (wi_msg w)).
    by rewrite list_lookup_fmap, Hw.
  - intros i t Ht Hfin.
    change ((worker_thread s h <$> ws) !! i = Some t) in Ht.
    rewrite list_lookup_fmap in Ht.
    destruct (ws !! i) as [w|] eqn:Hw; cbn in Ht; [|done].
    inversion Ht; subst t. unfold worker_thread in Hfin.
    rewrite finished_worker_at in Hfin.
    exact (inv_current _ _ _ _ _ _ _ HI _ _ Hw Hfin).
  - intros r st' a Hstep Htr Ha.
    destruct (start_step_inv _ _ _ _ _ _ _ _ _ _ HI Hstep Htr)
      as (spc' & mu' & sp & Hres & _ & _).
    assert (Hquiet : pending spc = []
                     /\ Forall (fun w => ended (wi_pc w) = true) ws).
    { destruct spc as [| | | | | | |v'|v'|e|msgs|wg' msgs|wg' [|m rest]];
        cbn in Hres; unfold add_counter in Hres; cbn in Hres;
        repeat case_match; simplify_eq; destruct Ha as [[? Ha]|[? Ha]];
        try discriminate Ha.
      - split; [done|]. exact (inv_joined _ _ _ _ _ _ _ HI eq_refl).
      - split; [done|].
        destruct (inv_spawning _ _ _ _ _ _ _ HI _ eq_refl) as [Hc _].
        cbn in Hc. apply unfinished_0.
        assert (Z.of_nat (unfinished ws) = 0%Z) by congruence. lia. }
    destruct Hquiet as [Hp Hf]. split; [|by apply Hdone].
    rewrite Hp, app_nil_r in Hlast. rewrite Hlast, length_map.
    apply (f_equal length) in Hpre. rewrite length_map, length_app in Hpre. done.
Qed.

Lemma batches_run_one_at_a_time_witness :
  reachable demo_service demo_handler default_vars demo_joining
  /\ step (start_tid, NoResponse) demo_joining = Some demo_joined
  /\ trace demo_joined
     = (start_tid, WaitGroupWaited (LocalWg 0)) :: trace demo_joining
  /\ length (workers demo_joining) = 3
  /\ Forall (fun t => finished t = true) (workers demo_joining).
Proof.
  assert (H1 : reachable demo_service demo_handler default_vars demo_joining)
    by (exists (take 27 demo_schedule); vm_compute; reflexivity).
  assert (H2 : step (start_tid, NoResponse) demo_joining = Some demo_joined)
    by (vm_compute; reflexivity).
  assert (H3 : trace demo_joined
               = (start_tid, WaitGroupWaited (LocalWg 0)) :: trace demo_joining)
    by (vm_compute; reflexivity).
  destruct (batches_run_one_at_a_time _ _ _ _ H1) as (_ & _ & _ & Hjoin).
  destruct (Hjoin _ _ _ H2 H3 (or_introl (ex_intro _ _ eq_refl))) as [Hlen Hfin].
  split; [exact H1|]. split; [exact H2|]. split; [exact H3|].
  split; [exact Hlen|exact Hfin].
Defined.

(** C5, as the code has it.  [Stop] cancels the context and then waits for
    [s.Running], which counts the calls of [Start] that have not returned,
    not the batches: it is 1 from the [Add(1)] at the entry of [Start] to
    the deferred [Done()] at its return, and 0 otherwise.  So:
    - the step at which [s.Running.Wait()] returns in [Stop] comes after the
      cancellation, with the counter at zero and every goroutine of every
      batch finished, its delete call included;
    - at its [Wait()], [Stop] cannot step while the counter is not zero, and
      it can when the counter is zero;
    - once [Stop] has returned, all goroutines have finished. *)
Theorem stop_waits_for_start_to_return s h v st :
  reachable s h v st ->
  (running (mem st) = 1%Z
   <-> (start_tid, WaitGroupAdded Running 1) ∈ trace st
       /\ ~ (start_tid, WaitGroupAdded Running (-1)) ∈ trace st)
  /\ (running (mem st) = 1%Z \/ running (mem st) = 0%Z)
  /\ (forall r st',
        step (stop_tid, r) st = Some st' ->
        trace st' = (stop_tid, WaitGroupWaited Running) :: trace st ->
        (stop_tid, CancelCalled) ∈ trace st
        /\ running (mem st) = 0%Z
        /\ Forall (fun t => finished t = true) (workers st))
  /\ (threads st !! stop_tid = Some (Ready (WaitGroup_Wait Running)) ->
      (running (mem st) <> 0%Z -> forall r, step (stop_tid, r) st = None)
      /\ (running (mem st) = 0%Z -> forall r, exists st', step (stop_tid, r) st = Some st'))
  /\ (forall t, threads st !! stop_tid = Some t -> finished t = true ->
                cancelled (mem st) = true
                /\ Forall (fun t => finished t = true) (workers st)).
Proof.
  intros Hr. destruct (reachable_Inv _ _ _ _ Hr) as (spc & ppc & ws & HI).
  pose proof (inv_running _ _ _ _ _ _ _ HI) as Hrun.
  pose proof (inv_entered _ _ _ _ _ _ _ HI) as Hent.
  pose proof (inv_returned _ _ _ _ _ _ _ HI) as Hret.
  rewrite (workers_Inv _ _ _ _ _ _ _ HI).
  split; [|split; [|split; [|split]]].
  - rewrite Hent, Hret, Hrun, start_active_entered.
    destruct (entered spc), (returned spc); cbn; intuition congruence.
  - rewrite Hrun. destruct (start_active spc); auto.
  - intros r st' Hstep Htr.
    destruct (stop_step_inv _ _ _ _ _ _ _ _ _ _ HI Hstep Htr) as (ppc' & mu' & Hres).
    destruct ppc; cbn in Hres; try discriminate.
    destruct (running (mem st) =? 0)%Z eqn:Hq; [|discriminate].
    assert (Hz : running (mem st) = 0%Z) by (by apply Z.eqb_eq).
    split; [|split; [done|]].
    + apply (inv_cancel_logged _ _ _ _ _ _ _ HI).
      by rewrite (inv_cancelled _ _ _ _ _ _ _ HI).
    + apply all_finished. apply (inv_joined _ _ _ _ _ _ _ HI).
      rewrite Hz in Hrun. by destruct spc.
  - intros Ht. split; intros Hz r; unfold step; cbn [fst snd]; rewrite Ht; cbn.
    + destruct (running (mem st) =? 0)%Z eqn:Hq; [|done].
      apply Z.eqb_eq in Hq. done.
    + rewrite Hz. cbn. eauto.
  - intros t Ht Hfin. rewrite (inv_threads _ _ _ _ _ _ _ HI) in Ht.
    cbn in Ht. inversion Ht; subst t. rewrite finished_stop_at in Hfin.
    destruct ppc; try done. split.
    + by rewrite (inv_cancelled _ _ _ _ _ _ _ HI).
    + apply all_finished. apply (inv_joined _ _ _ _ _ _ _ HI).
      pose proof (inv_stopped _ _ _ _ _ _ _ HI eq_refl). by destruct spc.
Qed.

(** C5 as stated fails.  In [idle_state] the only batch received has been
    joined and all its goroutines have finished, so no batch is in flight;
    yet [s.Running] is still 1, because the join does not decrement it, and
    [Stop], which has cancelled the context, cannot return from its
    [Wait()]. *)
Lemma stop_blocks_with_no_batch_in_flight :
  reachable demo_service demo_handler default_vars idle_state
  /\ (start_tid, WaitGroupWaited (LocalWg 0)) ∈ trace idle_state
  /\ Forall (fun t => finished t = true) (workers idle_state)
  /\ running (mem idle_state) = 1%Z
  /\ threads idle_state !! stop_tid = Some (Ready (WaitGroup_Wait Running))
  /\ forall r, step (stop_tid, r) idle_state = None.
Proof.
  split; [exists idle_schedule; vm_compute; reflexivity|].
  split; [apply (list_elem_of_lookup_2 _ 5); vm_compute; reflexivity|].
  split; [vm_compute; repeat constructor|].
  split; [reflexivity|]. split; [reflexivity|].
  intros r. destruct r; reflexivity.
Qed.

Lemma stop_waits_for_start_to_return_witness :
  reachable demo_service demo_handler default_vars idle_state
  /\ threads idle_state !! stop_tid = Some (Ready (WaitGroup_Wait Running))
  /\ running (mem idle_state) <> 0%Z
  /\ forall r, step (stop_tid, r) idle_state = None.
Proof.
  assert (H1 : reachable demo_service demo_handler default_vars idle_state)
    by (exists idle_schedule; vm_compute; reflexivity).
  assert (H2 : threads idle_state !! stop_tid = Some (Ready (WaitGroup_Wait Running)))
    by reflexivity.
  assert (H3 : running (mem idle_state) <> 0%Z) by (vm_compute; discriminate).
  destruct (stop_waits_for_start_to_return _ _ _ _ H1) as (_ & _ & _ & Hwait & _).
  split; [exact H1|]. split; [exact H2|]. split; [exact H3|].
  exact (proj1 (Hwait H2) H3).
Defined.

(** C6.  When a receive call returns an error, the next step of [Start],
    which it can always take, logs that error and leaves [Start] at the top
    of its loop, with nothing in between; and [Start] has returned only if
    it has seen the context done, after [Stop] cancelled it. *)
Theorem poll_loop_survives_receive_errors s h v st :
  reachable s h v st ->
  (forall r st1 resp e,
      step (start_tid, r) st = Some st1 ->
      trace st1 = (start_tid, ReceiveReturned resp (Some e)) :: trace st ->
      forall r', exists st2,
        step (start_tid, r') st1 = Some st2
        /\ trace st2 = (start_tid, Logged (Error e)) :: trace st1
        /\ threads st2 !! start_tid = Some (Ready (Start_loop s h)))
  /\ (forall t, threads st !! start_tid = Some t -> finished t = true ->
        cancelled (mem st) = true
        /\ (stop_tid, CancelCalled) ∈ trace st
        /\ (start_tid, DoneChecked true) ∈ trace st).
Proof.
  intros Hr. destruct (reachable_Inv _ _ _ _ Hr) as (spc & ppc & ws & HI).
  split.
  - intros r st1 resp e Hstep Htr r'.
    destruct (start_step_inv _ _ _ _ _ _ _ _ _ _ HI Hstep Htr)
      as (spc' & mu' & sp & Hres & Hth & _).
    assert (spc' = SReceiveErr e /\ sp = []) as [-> ->].
    { destruct spc as [| | | | | | |v'|v'|x|msgs|wg' msgs|wg' [|m rest]];
        cbn in Hres; unfold add_counter in Hres; cbn in Hres;
        repeat case_match; simplify_eq; done. }
    rewrite (inv_threads _ _ _ _ _ _ _ HI) in Hth. cbn in Hth.
    unfold step, start_tid. cbn [fst snd]. rewrite Hth. cbn.
    eexists. split; [reflexivity|]. cbn. done.
  - intros t Ht Hfin. rewrite (inv_threads _ _ _ _ _ _ _ HI) in Ht.
    cbn in Ht. inversion Ht; subst t. rewrite finished_start_at in Hfin.
    assert (Hlv : leaving spc = true) by (by destruct spc).
    pose proof (inv_leaving _ _ _ _ _ _ _ HI Hlv) as Hc.
    split; [done|]. split.
    + by apply (inv_cancel_logged _ _ _ _ _ _ _ HI).
    + by apply (inv_saw_done _ _ _ _ _ _ _ HI).
Qed.

Lemma poll_loop_survives_receive_errors_witness :
  reachable demo_service demo_handler default_vars polling_state
  /\ step (start_tid, ReceiveResult {| Messages := [] |} (Some receive_failure))
          polling_state = Some errored_state
  /\ exists st2,
       step (start_tid, NoResponse) errored_state = Some st2
       /\ trace st2 = (start_tid, Logged (Error receive_failure)) :: trace errored_state
       /\ threads st2 !! start_tid
          = Some (Ready (Start_loop demo_service demo_handler)).
Proof.
  assert (H1 : reachable demo_service demo_handler default_vars polling_state)
    by (exists (take 5 demo_schedule); vm_compute; reflexivity).
  assert (H2 : step (start_tid, ReceiveResult {| Messages := [] |} (Some receive_failure))
                    polling_state = Some errored_state)
    by (vm_compute; reflexivity).
  assert (H3 : trace errored_state
               = (start_tid, ReceiveReturned {| Messages := [] |} (Some receive_failure))
                   :: trace polling_state)
    by (vm_compute; reflexivity).
  destruct (poll_loop_survives_receive_errors _ _ _ _ H1) as [Hlog _].
  split; [exact H1|]. split; [exact H2|].
  exact (Hlog _ _ _ _ H2 H3 NoResponse).
Defined.

(** C7.  When the session can be created, [NewService] asks the transport
    for the URL of the queue exactly once.  If that fails it logs, creates
    no context and returns the error with a nil service; otherwise it
    returns a service that holds the URL of the answer, with a nil
    error. *)
Theorem NewService_resolves_once env n :
  session_ok env = true ->
  resolutions (run_NewService env n).1 = 1
  /\ QueueUrlRequested {| QueueName := Some n |} ∈ (run_NewService env n).1
  /\ match GetQueueUrl env {| QueueName := Some n |} with
     | (_, Some e) =>
         (run_NewService env n).2 = Some (None, Some e)
         /\ ~ ContextCreated ∈ (run_NewService env n).1
     | (out, None) =>
         (run_NewService env n).2
         = Some (Some {| JobSQSURL := aws_StringValue (QueueUrl out) |}, None)
         /\ (forall url, QueueUrl out = Some url ->
               (run_NewService env n).2 = Some (Some {| JobSQSURL := url |}, None))
     end.
Proof.
  intros Hs. unfold run_NewService, NewService. cbn. rewrite Hs. cbn.
  unfold aws_String.
  destruct (GetQueueUrl env {| QueueName := Some n |}) as [out [e|]]; cbn.
  - split; [done|]. split; [apply list_elem_of_In; cbn; tauto|].
    split; [done|]. intros Hin. apply list_elem_of_In in Hin. cbn in Hin.
    intuition discriminate.
  - split; [done|]. split; [apply list_elem_of_In; cbn; tauto|].
    split; [done|]. intros url ->. done.
Qed.

Lemma NewService_resolves_once_witness :
  session_ok demo_env = true
  /\ resolutions (run_NewService demo_env "jobs").1 = 1
  /\ (run_NewService demo_env "jobs").2
     = Some (Some {| JobSQSURL := "https://sqs/jobs" |}, None).
Proof.
  assert (H1 : session_ok demo_env = true) by reflexivity.
  destruct (NewService_resolves_once demo_env "jobs" H1) as (Hone & _ & Hres).
  split; [exact H1|]. split; [exact Hone|].
  exact (proj1 Hres).
Defined.

(** C9 as stated fails: the code passes the package variables to the
    receive call as they are.  With [MaxNumberOfMessage] set to 11 and
    [WaitTimeSecond] to 30, [Start] issues a receive call beyond the
    limits. *)
Lemma receive_call_beyond_limits :
  reachable demo_service demo_handler large_vars large_state
  /\ (start_tid, ReceiveCalled (receive_params demo_service large_vars))
       ∈ trace large_state
  /\ MaxNumberOfMessages (receive_params demo_service large_vars) = Some 11%Z
  /\ ~ within_limits (receive_params demo_service large_vars).
Proof.
  split; [exists (take 5 demo_schedule); vm_compute; reflexivity|].
  split; [apply (list_elem_of_lookup_2 _ 0); vm_compute; reflexivity|].
  split; [reflexivity|].
  intros (n & w & Hn & Hrange & _). cbn in Hn. inversion Hn; subst n. lia.
Qed.

(** C9, as the code has it.  Every receive call is issued by [Start] and
    carries the values of [MaxNumberOfMessage] and [WaitTimeSecond]
    unchanged; it is within the limits of the queue exactly when these
    values are, and with the default values it asks for 10 messages and waits
    20 seconds. *)
Theorem receive_calls_use_the_package_variables s h v st tid p :
  reachable s h v st ->
  (tid, ReceiveCalled p) ∈ trace st ->
  tid = start_tid
  /\ p = receive_params s v
  /\ MaxNumberOfMessages p = Some (MaxNumberOfMessage v)
  /\ WaitTimeSeconds p = Some (WaitTimeSecond v)
  /\ (within_limits p
      <-> (1 <= MaxNumberOfMessage v <= 10)%Z /\ (0 <= WaitTimeSecond v <= 20)%Z)
  /\ (v = default_vars ->
      MaxNumberOfMessages p = Some 10%Z /\ WaitTimeSeconds p = Some 20%Z
      /\ within_limits p).
Proof.
  intros Hr Hin. destruct (reachable_Inv _ _ _ _ Hr) as (spc & ppc & ws & HI).
  pose proof (inv_receives _ _ _ _ _ _ _ HI) as Hrcv.
  rewrite Forall_forall in Hrcv. destruct (Hrcv _ Hin p eq_refl) as [Ht ->].
  cbn in Ht. split; [done|]. split; [done|]. split; [done|]. split; [done|].
  split.
  - unfold within_limits. cbn. unfold aws_Int64. split.
    + intros (n & w & [= <-] & Hn & [= <-] & Hw). done.
    + intros [Hn Hw]. eauto 10.
  - intros ->. split; [done|]. split; [done|].
    exists 10%Z, 20%Z. cbn. unfold aws_Int64. repeat split; lia.
Qed.

Lemma receive_calls_use_the_package_variables_witness :
  reachable demo_service demo_handler default_vars polling_state
  /\ (start_tid, ReceiveCalled (receive_params demo_service default_vars))
       ∈ trace polling_state
  /\ within_limits (receive_params demo_service default_vars).
Proof.
  assert (H1 : reachable demo_service demo_handler default_vars polling_state)
    by (exists (take 5 demo_schedule); vm_compute; reflexivity).
  assert (H2 : (start_tid, ReceiveCalled (receive_params demo_service default_vars))
               ∈ trace polling_state)
    by (apply (list_elem_of_lookup_2 _ 0); vm_compute; reflexivity).
  destruct (receive_calls_use_the_package_variables _ _ _ _ _ _ H1 H2)
    as (_ & _ & _ & _ & _ & Hdef).
  split; [exact H1|]. split; [exact H2|].
  exact (proj2 (proj2 (Hdef eq_refl))).
Defined.

(** C10.  The type assertion of [handleMessage] succeeds only on an error
    whose dynamic type is the value type [InvalidMessageError]: not on a
    pointer to one, and not on an error that wraps one.  When the handler
    returns any other non-nil error, [handleMessage] makes no delete call
    and returns that error, and the goroutine, when it has finished, has
    called the handler, logged the error and called [wg.Done()], and
    nothing else. *)
Theorem only_the_value_type_is_permanent s h v st tid m e :
  reachable s h v st ->
  (tid, HandlerReturned m (Some e)) ∈ trace st ->
  (forall d, e <> ErrInvalidMessage d) ->
  (forall err d, assert_InvalidMessageError err = Some d
                 <-> err = Some (ErrInvalidMessage d))
  /\ (forall d, assert_InvalidMessageError (Some (ErrInvalidMessagePtr d)) = None)
  /\ (forall text d,
        assert_InvalidMessageError (Some (ErrWrapped text (ErrInvalidMessage d)))
        = None)
  /\ assert_InvalidMessageError (Some e) = None
  /\ (forall del,
        run_handleMessage del s m h
        = ([HandlerCalled m; HandlerReturned m (Some e)], Some (Some e)))
  /\ deletes_of tid (trace st) = []
  /\ (forall t, threads st !! tid = Some t -> finished t = true ->
        exists wg,
          actions_of tid (trace st)
          = [WaitGroupAdded wg (-1); Logged (Error e);
             HandlerReturned m (Some e); HandlerCalled m]).
Proof.
  intros Hr Hin Hne.
  assert (Hassert : assert_InvalidMessageError (Some e) = None).
  { destruct e; try done. by destruct (Hne e). }
  destruct (delivery_view _ _ _ _ _ _ _ Hr Hin) as (wg & pc & Ht & Herr & Hok & Hown & Htid).
  assert (Htr : transient (HandleMessage h m) = true).
  { rewrite <- Herr. unfold transient. by rewrite Hassert. }
  pose proof (worker_ok_transient _ _ _ Hok Htr) as Hdel.
  split; [|split; [done|split; [done|split; [done|split; [|split]]]]].
  - intros err d. split.
    + destruct err as [[x|x|text x|ty text]|]; cbn; congruence.
    + intros ->. done.
  - intros del. unfold run_handleMessage, handleMessage. cbn.
    rewrite <- Herr, Hassert. done.
  - rewrite (deletes_of_worker _ _ _ _ _ _ _ Hown), Hdel. done.
  - intros t Ht' Hfin. rewrite Ht in Ht'. inversion Ht'; subst t.
    rewrite finished_worker_at in Hfin. exists wg. rewrite Hown.
    destruct pc as [| |x| | |x b|[d|]|[d|]]; try done; cbn in Hok; try congruence.
    cbn. unfold before_delete. rewrite <- Herr. done.
Qed.

Lemma only_the_value_type_is_permanent_witness :
  reachable demo_service pointer_handler default_vars pointer_state
  /\ (2, HandlerReturned (demo_message "m1") (Some pointer_failure))
       ∈ trace pointer_state
  /\ (forall d, pointer_failure <> ErrInvalidMessage d)
  /\ deletes_of 2 (trace pointer_state) = []
  /\ run_handleMessage (fun _ => None) demo_service (demo_message "m1") pointer_handler
     = ([HandlerCalled (demo_message "m1");
         HandlerReturned (demo_message "m1") (Some pointer_failure)],
        Some (Some pointer_failure)).
Proof.
  assert (H1 : reachable demo_service pointer_handler default_vars pointer_state)
    by (exists pointer_schedule; vm_compute; reflexivity).
  assert (H2 : (2, HandlerReturned (demo_message "m1") (Some pointer_failure))
               ∈ trace pointer_state)
    by (apply (list_elem_of_lookup_2 _ 2); vm_compute; reflexivity).
  assert (H3 : forall d, pointer_failure <> ErrInvalidMessage d)
    by (intros d; discriminate).
  destruct (only_the_value_type_is_permanent _ _ _ _ _ _ _ H1 H2 H3)
    as (_ & _ & _ & _ & Hrun & Hdel & _).
  split; [exact H1|]. split; [exact H2|]. split; [exact H3|].
  split; [exact Hdel|]. exact (Hrun _).
Defined.

(** ** Further properties of the service *)

Lemma exec_app cs1 cs2 st :
  exec (cs1 ++ cs2) st
  = match exec cs1 st with
    | Some st1 => exec cs2 st1
    | None => None
    end.
Proof.
  revert st. induction cs1 as [|c cs1 IH]; intros st; cbn; [done|].
  destruct (step c st); [apply IH|done].
Qed.



(** Induction on the executions from [init s h v]. *)
Lemma reachable_ind s h v (P : state -> Prop) :
  P (init s h v) ->
  (forall st c st', reachable s h v st -> P st -> step c st = Some st' -> P st') ->
  forall st, reachable s h v st -> P st.
Proof.
  intros Hinit Hstep st [cs Hex]. revert st Hex.
  induction cs as [|c cs IH] using rev_ind; intros st Hex.
  - cbn in Hex. by inversion Hex.
  - rewrite exec_app in Hex.
    destruct (exec cs (init s h v)) as [st1|] eqn:H1; [|done].
    cbn in Hex. destruct (step c st1) as [st2|] eqn:H2; [|done].
    inversion Hex; subst st2.
    eapply Hstep; [by exists cs|by apply IH|exact H2].
Qed.

Lemma handler_calls_of_actions tid tr :
  handler_calls_of tid tr = handler_calls (actions_of tid tr).
Proof.
  induction tr as [|[t a] tr IH]; cbn; [done|].
  destruct a; cbn; destruct (Nat.eqb t tid); cbn; by rewrite ?IH.
Qed.

Lemma handler_calls_app l1 l2 :
  handler_calls (l1 ++ l2) = handler_calls l1 ++ handler_calls l2.
Proof.
  induction l1 as [|a l1 IH]; cbn; [done|]. destruct a; cbn; by rewrite IH.
Qed.

Lemma handler_calls_rev l : handler_calls (rev l) = rev (handler_calls l).
Proof.
  induction l as [|a l IH]; cbn; [done|].
  rewrite handler_calls_app, IH. destruct a; cbn; by rewrite ?app_nil_r.
Qed.

Lemma elem_of_handler_calls m acts :
  m ∈ handler_calls acts -> HandlerCalled m ∈ acts.
Proof.
  induction acts as [|a acts IH]; cbn; intros Hin.
  - by apply elem_of_nil in Hin.
  - destruct a; try (apply elem_of_cons; right; by auto).
    apply elem_of_cons in Hin as [->|Hin]; apply elem_of_cons; auto.
Qed.

Lemma worker_handler_calls s h wg m pc :
  handler_calls (worker_events s h wg m pc)
  = match pc with WStart => [] | _ => [m] end.
Proof.
  destruct pc as [| |e| | |e [|]|[[d|]|]|[[d|]|]]; cbn;
    unfold reported, deleted, before_delete; rewrite ?handler_calls_app;
    destruct (HandleMessage h m); done.
Qed.

(** X1.  The handler is called at most once by each goroutine, and never by
    [Start] or [Stop]: there is no retry inside the process.  A goroutine
    that has finished has called the handler exactly once, on the message
    of its rank among the messages received, and the call has returned. *)
Theorem handler_is_called_once_per_delivery s h v st tid :
  reachable s h v st ->
  length (handler_calls_of tid (trace st)) <= 1
  /\ (tid < 2 -> handler_calls_of tid (trace st) = [])
  /\ (forall t, threads st !! tid = Some t -> 2 <= tid -> finished t = true ->
        exists m,
          handler_calls_of tid (trace st) = [m]
          /\ delivered (trace st) !! (tid - 2) = Some m
          /\ (tid, HandlerReturned m (HandleMessage h m)) ∈ trace st).
Proof.
  intros Hr. destruct (reachable_Inv _ _ _ _ Hr) as (spc & ppc & ws & HI).
  assert (Hview : forall m, m ∈ handler_calls_of tid (trace st) ->
            exists i wg m' pc,
              tid = 2 + i
              /\ ws !! i = Some {| wi_wg := wg; wi_msg := m'; wi_pc := pc |}
              /\ actions_of tid (trace st) = rev (worker_events s h wg m' pc)).
  { intros m Hin. rewrite handler_calls_of_actions in Hin.
    apply elem_of_handler_calls, elem_of_actions_of in Hin.
    destruct (worker_view _ _ _ _ _ _ _ _ _ HI Hin eq_refl)
      as (i & [wg m' pc] & -> & Hw & _).
    exists i, wg, m', pc. split; [done|]. split; [done|].
    exact (inv_own _ _ _ _ _ _ _ HI _ _ Hw). }
  split; [|split].
  - destruct (handler_calls_of tid (trace st)) as [|m ms] eqn:Hcs; [cbn; lia|].
    destruct (Hview m) as (i & wg & m' & pc & -> & Hw & Hown).
    { apply elem_of_cons. by left. }
    rewrite handler_calls_of_actions, Hown, handler_calls_rev,
      worker_handler_calls in Hcs.
    destruct pc; cbn in Hcs; inversion Hcs; cbn; lia.
  - intros Hlt. destruct (handler_calls_of tid (trace st)) as [|m ms] eqn:Hcs; [done|].
    destruct (Hview m) as (i & wg & m' & pc & -> & _).
    { apply elem_of_cons. by left. }
    lia.
  - intros t Ht Htid Hfin. replace tid with (2 + (tid - 2)) in * by lia.
    destruct (worker_lookup _ _ _ _ _ _ _ _ _ HI Ht) as ([wg m pc] & Hw & ->).
    unfold worker_thread in Hfin. cbn in Hfin. rewrite finished_worker_at in Hfin.
    pose proof (inv_own _ _ _ _ _ _ _ HI _ _ Hw) as Hown.
    cbn [wi_wg wi_msg wi_pc] in Hown.
    exists m. split; [|split].
    + rewrite handler_calls_of_actions, Hown, handler_calls_rev,
        worker_handler_calls. by destruct pc.
    + destruct (inv_delivered _ _ _ _ _ _ _ HI) as (pre & Hpre & Hlast).
      rewrite delivered_split, Hlast, app_assoc, <- Hpre.
      apply lookup_app_l_Some.
      replace (2 + (tid - 2) - 2) with (tid - 2) by lia.
      change ((wi_msg <$> ws) !! (tid - 2) = Some m).
      by rewrite list_lookup_fmap, Hw.
    + apply elem_of_actions_of. rewrite Hown. apply elem_of_rev_list.
      destruct pc as [| |x| | |x b|[d|]|[d|]]; try done;
        cbn; unfold reported, deleted, before_delete, handled;
        repeat destruct d as [d|]; apply list_elem_of_In;
        rewrite ?in_app_iff; cbn; tauto.
Qed.

Lemma handler_is_called_once_per_delivery_witness :
  reachable demo_service demo_handler default_vars demo_state
  /\ length (handler_calls_of 3 (trace demo_state)) <= 1
  /\ handler_calls_of 0 (trace demo_state) = []
  /\ exists m, handler_calls_of 3 (trace demo_state) = [m]
               /\ delivered (trace demo_state) !! 1 = Some m.
Proof.
  assert (H1 : reachable demo_service demo_handler default_vars demo_state)
    by (exists demo_schedule; vm_compute; reflexivity).
  destruct (handler_is_called_once_per_delivery _ _ _ _ 3 H1) as (Hle & _ & Hfin).
  destruct (handler_is_called_once_per_delivery _ _ _ _ 0 H1) as (_ & Hnone & _).
  destruct (Hfin (Ready (Ret tt)) eq_refl (le_S _ _ (le_n 2)) eq_refl)
    as (m & Hm & Hd & _).
  split; [exact H1|]. split; [exact Hle|]. split; [apply Hnone; lia|].
  exists m. split; [exact Hm|exact Hd].
Defined.

(** When [run] returns and when [Start] issues a receive call, no message
    waits for a goroutine and all goroutines have returned. *)
Lemma quiet_step s h v st spc ppc ws r st' a :
  Inv s h v st spc ppc ws ->
  step (start_tid, r) st = Some st' ->
  trace st' = (start_tid, a) :: trace st ->
  (exists wg, a = WaitGroupWaited wg) \/ (exists p, a = ReceiveCalled p) ->
  pending spc = [] /\ Forall (fun w => ended (wi_pc w) = true) ws.
Proof.
  intros HI Hstep Htr Ha.
  destruct (start_step_inv _ _ _ _ _ _ _ _ _ _ HI Hstep Htr)
    as (spc' & mu' & sp & Hres & _ & _).
  destruct spc as [| | | | | | |v'|v'|e|msgs|wg' msgs|wg' [|m rest]];
    cbn in Hres; unfold add_counter in Hres; cbn in Hres;
    repeat case_match; simplify_eq; destruct Ha as [[? Ha]|[? Ha]];
    try discriminate Ha.
  - split; [done|]. exact (inv_joined _ _ _ _ _ _ _ HI eq_refl).
  - split; [done|].
    destruct (inv_spawning _ _ _ _ _ _ _ HI _ eq_refl) as [Hc _].
    cbn in Hc. apply unfinished_0.
    assert (Z.of_nat (unfinished ws) = 0%Z) by congruence. lia.
Qed.

(** X2.  No message is skipped.  At the step where [run] returns, and at
    the step where [Start] issues a receive call, every message received so
    far has been handled: its goroutine has called the handler on it once,
    the call has returned, and the goroutine has made one delete call for
    it, or none if the handler returned an error other than an
    [InvalidMessageError]. *)
Theorem no_message_is_skipped s h v st r st' a :
  reachable s h v st ->
  step (start_tid, r) st = Some st' ->
  trace st' = (start_tid, a) :: trace st ->
  (exists wg, a = WaitGroupWaited wg) \/ (exists p, a = ReceiveCalled p) ->
  forall i m, delivered (trace st) !! i = Some m ->
    handler_calls_of (2 + i) (trace st) = [m]
    /\ (2 + i, HandlerReturned m (HandleMessage h m)) ∈ trace st
    /\ deletes_of (2 + i) (trace st)
       = if transient (HandleMessage h m) then [] else [delete_params s m].
Proof.
  intros Hr Hstep Htr Ha i m Hm.
  destruct (reachable_Inv _ _ _ _ Hr) as (spc & ppc & ws & HI).
  destruct (quiet_step _ _ _ _ _ _ _ _ _ _ HI Hstep Htr Ha) as [Hp Hf].
  destruct (inv_delivered _ _ _ _ _ _ _ HI) as (pre & Hpre & Hlast).
  rewrite Hp, app_nil_r in Hlast.
  rewrite delivered_split, Hlast, <- Hpre in Hm.
  change ((wi_msg <$> ws) !! i = Some m) in Hm.
  rewrite list_lookup_fmap in Hm.
  destruct (ws !! i) as [[wg m' pc]|] eqn:Hw; cbn in Hm; [|done].
  inversion Hm; subst m'.
  pose proof (Forall_lookup_1 _ _ _ _ Hf Hw) as Hend. cbn in Hend.
  pose proof (Forall_lookup_1 _ _ _ _ (inv_ok _ _ _ _ _ _ _ HI) Hw) as Hok.
  cbn in Hok.
  pose proof (inv_own _ _ _ _ _ _ _ HI _ _ Hw) as Hown.
  cbn [wi_wg wi_msg wi_pc] in Hown.
  split; [|split].
  - rewrite handler_calls_of_actions, Hown, handler_calls_rev,
      worker_handler_calls. by destruct pc.
  - apply elem_of_actions_of. rewrite Hown. apply elem_of_rev_list.
    destruct pc as [| |x| | |x b|[d|]|[d|]]; try done;
      cbn; unfold reported, deleted, before_delete, handled;
      repeat destruct d as [d|]; apply list_elem_of_In;
      rewrite ?in_app_iff; cbn; tauto.
  - rewrite (deletes_of_worker _ _ _ _ _ _ _ Hown),
      (worker_ok_ended _ _ _ Hok Hend).
    by destruct (transient (HandleMessage h m)).
Qed.

Lemma no_message_is_skipped_witness :
  reachable demo_service demo_handler default_vars demo_joining
  /\ step (start_tid, NoResponse) demo_joining = Some demo_joined
  /\ delivered (trace demo_joining) !! 2 = Some (demo_message "tmp")
  /\ handler_calls_of 4 (trace demo_joining) = [demo_message "tmp"]
  /\ deletes_of 4 (trace demo_joining) = [].
Proof.
  assert (H1 : reachable demo_service demo_handler default_vars demo_joining)
    by (exists (take 27 demo_schedule); vm_compute; reflexivity).
  assert (H2 : step (start_tid, NoResponse) demo_joining = Some demo_joined)
    by (vm_compute; reflexivity).
  assert (H3 : trace demo_joined
               = (start_tid, WaitGroupWaited (LocalWg 0)) :: trace demo_joining)
    by (vm_compute; reflexivity).
  assert (H4 : delivered (trace demo_joining) !! 2 = Some (demo_message "tmp"))
    by (vm_compute; reflexivity).
  destruct (no_message_is_skipped _ _ _ _ _ _ _ H1 H2 H3
              (or_introl (ex_intro _ _ eq_refl)) 2 _ H4) as (Hc & _ & Hd).
  split; [exact H1|]. split; [exact H2|]. split; [exact H4|].
  split; [exact Hc|exact Hd].
Defined.

(** Only a goroutine that has not returned takes a step. *)
Lemma step_unfinished tid r st st' :
  step (tid, r) st = Some st' ->
  exists t, threads st !! tid = Some t /\ finished t = false.
Proof.
  unfold step. cbn [fst snd]. destruct (threads st !! tid) as [t|]; [|done].
  intros Hs. exists t. split; [done|]. by destruct t as [[]|].
Qed.

(** A step of [Start], from its program point. *)
Lemma start_step_view s h v st spc ppc ws r st' :
  Inv s h v st spc ppc ws -> step (start_tid, r) st = Some st' ->
  exists spc' mu' sp acts,
    start_step s h (mem st) (length (threads st)) r spc
    = Some (spc', mu', sp, acts)
    /\ st' = {| threads := <[start_tid := start_at s h spc']> (threads st) ++ sp;
                mem := mu';
                trace := rev (map (pair start_tid) acts) ++ trace st |}.
Proof.
  intros HI Hstep.
  apply (step_at_point (start_at s h) start_tid r st st' spc); [|apply step_start_at|done].
  by rewrite (inv_threads _ _ _ _ _ _ _ HI).
Qed.

(** Once [Stop] has returned, only [Start] steps: from its entry to its
    return, without polling. *)
Lemma stopped_step s h v st spc ws c st' :
  Inv s h v st spc PReturned ws -> step c st = Some st' ->
  exists spc' ws' acts,
    Inv s h v st' spc' PReturned ws'
    /\ trace st' = map (pair start_tid) acts ++ trace st
    /\ Forall (fun a => work_action a = false) acts
    /\ workers st' = workers st.
Proof.
  intros HI Hstep.
  pose proof (inv_stopped _ _ _ _ _ _ _ HI eq_refl) as Hidle.
  destruct c as [[|[|i]] r].
  - destruct (Inv_step_start _ _ _ _ _ _ _ _ _ HI Hstep) as (spc1 & ws1 & HI1).
    destruct (start_step_view _ _ _ _ _ _ _ _ _ HI Hstep)
      as (spc' & mu' & sp & acts & Hres & ->).
    pose proof (inv_cancelled _ _ _ _ _ _ _ HI) as Hcan. cbn in Hcan.
    exists spc1, ws1, (rev acts). split; [exact HI1|].
    split; [cbn [trace]; by rewrite map_rev|].
    destruct spc; try discriminate Hidle; cbn in Hres; unfold add_counter in Hres;
      cbn in Hres; rewrite ?Hcan in Hres; repeat case_match; simplify_eq;
      (split; [cbn; repeat constructor|]);
      unfold workers; cbn; rewrite (inv_threads _ _ _ _ _ _ _ HI); cbn;
      by rewrite app_nil_r.
  - destruct (step_unfinished _ _ _ _ Hstep) as (t & Ht & Hfin).
    rewrite (inv_threads _ _ _ _ _ _ _ HI) in Ht. cbn in Ht. by simplify_eq.
  - destruct (step_unfinished _ _ _ _ Hstep) as (t & Ht & Hfin).
    destruct (worker_lookup _ _ _ _ _ _ _ _ _ HI Ht) as (w & Hw & ->).
    unfold worker_thread in Hfin. rewrite finished_worker_at in Hfin.
    assert (Hsp : spawning spc = None) by (by destruct spc).
    pose proof (Forall_lookup_1 _ _ _ _ (inv_joined _ _ _ _ _ _ _ HI Hsp) Hw) as He.
    cbn in He. congruence.
Qed.

(** X3.  Once [Stop] has returned, the service does no work, whatever
    happens next: no receive call, no handler call, no delete call and no
    new goroutine.  All that can still happen is a call of [Start] that
    sees the context done and returns. *)
Theorem no_work_after_stop_returns s h v st t cs st' :
  reachable s h v st ->
  threads st !! stop_tid = Some t -> finished t = true ->
  exec cs st = Some st' ->
  exists newer,
    trace st' = newer ++ trace st
    /\ Forall (fun e => e.1 = start_tid /\ work_action e.2 = false) newer
    /\ workers st' = workers st
    /\ Forall (fun t => finished t = true) (workers st').
Proof.
  intros Hr Ht Hfin Hex.
  destruct (reachable_Inv _ _ _ _ Hr) as (spc & ppc & ws & HI).
  assert (ppc = PReturned) as ->.
  { rewrite (inv_threads _ _ _ _ _ _ _ HI) in Ht. cbn in Ht.
    inversion Ht; subst t. by destruct ppc. }
  assert (Hgen : forall cs st spc ws st',
            Inv s h v st spc PReturned ws -> exec cs st = Some st' ->
            exists newer,
              trace st' = newer ++ trace st
              /\ Forall (fun e => e.1 = start_tid /\ work_action e.2 = false) newer
              /\ workers st' = workers st).
  { clear. induction cs as [|c cs IH]; intros st spc ws st' HI Hex; cbn in Hex.
    - inversion Hex; subst. exists []. done.
    - destruct (step c st) as [st1|] eqn:Hstep; [|done].
      destruct (stopped_step _ _ _ _ _ _ _ _ HI Hstep)
        as (spc1 & ws1 & acts & HI1 & Htr1 & Hacts & Hw1).
      destruct (IH _ _ _ _ HI1 Hex) as (newer & Htr & Hnew & Hw).
      exists (newer ++ map (pair start_tid) acts).
      split; [by rewrite Htr, Htr1, app_assoc|]. split; [|congruence].
      apply Forall_app. split; [done|]. apply Forall_fmap.
      eapply Forall_impl; [exact Hacts|]. done. }
  destruct (Hgen _ _ _ _ _ HI Hex) as (newer & Htr & Hnew & Hw).
  exists newer. split; [done|]. split; [done|]. split; [done|].
  rewrite Hw, (workers_Inv _ _ _ _ _ _ _ HI). apply all_finished.
  apply (inv_joined _ _ _ _ _ _ _ HI).
  pose proof (inv_stopped _ _ _ _ _ _ _ HI eq_refl). by destruct spc.
Qed.

Lemma no_work_after_stop_returns_witness :
  reachable demo_service demo_handler default_vars early_stop_state
  /\ exec late_start_schedule early_stop_state = Some late_start_state
  /\ exists newer,
       trace late_start_state = newer ++ trace early_stop_state
       /\ Forall (fun e => e.1 = start_tid /\ work_action e.2 = false) newer.
Proof.
  assert (H1 : reachable demo_service demo_handler default_vars early_stop_state)
    by (exists early_stop_schedule; vm_compute; reflexivity).
  assert (H2 : threads early_stop_state !! stop_tid = Some (Ready (Ret tt)))
    by reflexivity.
  assert (H3 : exec late_start_schedule early_stop_state = Some late_start_state)
    by (vm_compute; reflexivity).
  destruct (no_work_after_stop_returns _ _ _ _ _ _ _ H1 H2 eq_refl H3)
    as (newer & Htr & Hnew & _).
  split; [exact H1|]. split; [exact H3|]. exists newer. split; [exact Htr|exact Hnew].
Defined.





Lemma active_workers s h ws : active (map (worker_thread s h) ws) = unfinished ws.
Proof.
  induction ws as [|w ws IH]; cbn; [done|].
  unfold worker_thread at 1. by rewrite finished_worker_at, IH.
Qed.

Lemma unfinished_le_length ws : unfinished ws <= length ws.
Proof. induction ws as [|w ws IH]; cbn; [lia|]. destruct (ended (wi_pc w)); lia. Qed.

Lemma unfinished_from ws n :
  (forall i w, ws !! i = Some w -> ended (wi_pc w) = false -> n <= i) ->
  unfinished ws <= length ws - n.
Proof.
  revert n. induction ws as [|w ws IH]; intros n Hn; cbn; [lia|].
  destruct n as [|n].
  - pose proof (unfinished_le_length ws). destruct (ended (wi_pc w)); lia.
  - destruct (ended (wi_pc w)) eqn:He.
    + cbn. apply IH. intros i w' Hw He'. specialize (Hn (S i) w' Hw He'). lia.
    + specialize (Hn 0 w eq_refl He). lia.
Qed.

(** X5.  The goroutines that run at any one time are at most as many as
    the messages of the newest batch: together with the messages of that
    batch that still wait for their goroutine, the goroutines that have not
    returned never outnumber the batch. *)
Theorem running_goroutines_fit_the_batch s h v st :
  reachable s h v st ->
  active (workers st) + (length (delivered (trace st)) - length (workers st))
  <= length (last_batch (trace st)).
Proof.
  intros Hr. destruct (reachable_Inv _ _ _ _ Hr) as (spc & ppc & ws & HI).
  rewrite (workers_Inv _ _ _ _ _ _ _ HI), active_workers, length_map.
  destruct (inv_delivered _ _ _ _ _ _ _ HI) as (pre & Hpre & Hlast).
  pose proof (unfinished_from _ _ (inv_current _ _ _ _ _ _ _ HI)) as Hun.
  rewrite delivered_split, Hlast, !length_app.
  apply (f_equal length) in Hpre. rewrite length_map, length_app in Hpre. lia.
Qed.

Lemma running_goroutines_fit_the_batch_witness :
  reachable demo_service demo_handler default_vars demo_handling
  /\ active (workers demo_handling) = 3
  /\ active (workers demo_handling) <= length (last_batch (trace demo_handling)).
Proof.
  assert (H1 : reachable demo_service demo_handler default_vars demo_handling)
    by (exists (take 14 demo_schedule); vm_compute; reflexivity).
  pose proof (running_goroutines_fit_the_batch _ _ _ _ H1) as Hle.
  split; [exact H1|]. split; [reflexivity|].
  eapply Nat.le_trans; [apply Nat.le_add_r|exact Hle].
Defined.

(** X6.  A goroutine of a message behaves, in every execution, as
    [handleMessage] run on its own.  When the goroutine has returned, what
    it did, oldest first, is the sequential run of [handleMessage] on its
    message with the answers the transport gave it, then the log line of
    the error if [handleMessage] returned one, then its [wg.Done()].  The
    result of [handleMessage] is the error of the handler if that is not
    nil and not an [InvalidMessageError], and the answer to the delete call
    otherwise. *)
Theorem goroutine_runs_handleMessage s h v st tid t :
  reachable s h v st -> 2 <= tid ->
  threads st !! tid = Some t -> finished t = true ->
  exists m wg del,
    delivered (trace st) !! (tid - 2) = Some m
    /\ (forall p e, (tid, DeleteReturned p e) ∈ trace st -> del p = e)
    /\ (run_handleMessage del s m h).2
       = Some (if transient (HandleMessage h m) then HandleMessage h m
               else del (delete_params s m))
    /\ rev (actions_of tid (trace st))
       = (run_handleMessage del s m h).1
         ++ match (run_handleMessage del s m h).2 with
            | Some (Some e) => [Logged (Error e)]
            | _ => []
            end
         ++ [WaitGroupAdded wg (-1)].
Proof.
  intros Hr Htid Ht Hfin.
  destruct (reachable_Inv _ _ _ _ Hr) as (spc & ppc & ws & HI).
  replace tid with (2 + (tid - 2)) in Ht by lia.
  destruct (worker_lookup _ _ _ _ _ _ _ _ _ HI Ht) as ([wg m pc] & Hw & ->).
  unfold worker_thread in Hfin. cbn in Hfin. rewrite finished_worker_at in Hfin.
  pose proof (inv_own _ _ _ _ _ _ _ HI _ _ Hw) as Hown.
  cbn [wi_wg wi_msg wi_pc] in Hown.
  replace (2 + (tid - 2)) with tid in Hown by lia.
  pose proof (Forall_lookup_1 _ _ _ _ (inv_ok _ _ _ _ _ _ _ HI) Hw) as Hok.
  cbn in Hok.
  destruct pc as [| |x| | |x b|d|d]; try discriminate Hfin.
  exists m, wg, (fun _ => match d with Some derr => derr | None => None end).
  split; [|split; [|split]].
  - destruct (inv_delivered _ _ _ _ _ _ _ HI) as (pre & Hpre & Hlast).
    rewrite delivered_split, Hlast, app_assoc, <- Hpre.
    apply lookup_app_l_Some.
    change ((wi_msg <$> ws) !! (tid - 2) = Some m).
    by rewrite list_lookup_fmap, Hw.
  - intros p e Hin. apply elem_of_actions_of in Hin. rewrite Hown in Hin.
    apply elem_of_rev_list, delete_returned_events in Hin as [_ Hd].
    destruct d as [d|]; [by subst|done].
  - unfold run_handleMessage, handleMessage.
    destruct d as [[e|]|]; cbn in Hok |- *;
      destruct (HandleMessage h m) as [[x|x|n i|n x]|];
      cbn in Hok |- *; try discriminate Hok; reflexivity.
  - rewrite Hown, rev_involutive. cbn [worker_events].
    unfold run_handleMessage, handleMessage, reported, deleted, before_delete,
      handled.
    destruct d as [[e|]|]; cbn in Hok |- *;
      destruct (HandleMessage h m) as [[x|x|n i|n x]|];
      cbn in Hok |- *; try discriminate Hok; reflexivity.
Qed.

Lemma goroutine_runs_handleMessage_witness :
  reachable demo_service demo_handler default_vars demo_state
  /\ exists del,
       del (delete_params demo_service (demo_message "bad"))
       = Some demo_delete_failure
       /\ (run_handleMessage del demo_service (demo_message "bad") demo_handler).2
          = Some (Some demo_delete_failure).
Proof.
  assert (H1 : reachable demo_service demo_handler default_vars demo_state)
    by (exists demo_schedule; vm_compute; reflexivity).
  assert (H2 : (3, DeleteReturned (delete_params demo_service (demo_message "bad"))
                     (Some demo_delete_failure)) ∈ trace demo_state)
    by (apply (list_elem_of_lookup_2 _ 10); vm_compute; reflexivity).
  destruct (goroutine_runs_handleMessage _ _ _ _ 3 _ H1 (le_S _ _ (le_n 2))
              eq_refl eq_refl) as (m & wg & del & Hm & Hdel & Hres & _).
  split; [exact H1|]. exists del.
  assert (Hbad : m = demo_message "bad").
  { apply (inj Some). rewrite <- Hm. reflexivity. }
  subst m. rewrite Hres. split; [exact (Hdel _ _ H2)|].
  cbn. f_equal. exact (Hdel _ _ H2).
Defined.

(** The step of [Start] in a state where it is at [pc]. *)
Lemma step_start_from s h st rest pc r :
  threads st = start_at s h pc :: rest ->
  step (start_tid, r) st
  = match start_step s h (mem st) (S (length rest)) r pc with
    | Some (pc', mu', sp, acts) =>
        Some {| threads := start_at s h pc' :: rest ++ sp;
                mem := mu';
                trace := rev (map (pair start_tid) acts) ++ trace st |}
    | None => None
    end.
Proof.
  intros Hth. unfold step. cbn [fst snd]. rewrite Hth.
  change ((start_at s h pc :: rest) !! start_tid) with (Some (start_at s h pc)).
  cbv beta iota. rewrite step_start_at. cbn [length].
  by destruct (start_step s h (mem st) (S (length rest)) r pc)
    as [[[[pc' mu'] sp] acts]|].
Qed.

(** X7.  A cancelled context stops the loop at its next round.  When the
    context has been cancelled and [Start] is at its [for], the next four
    steps of [Start] are always possible and make it return: it checks the
    context, logs that the listener stopped and runs the deferred
    [s.Running.Done()], which leaves the counter at zero.  It makes no
    receive call and starts no goroutine. *)
Theorem cancelled_start_returns s h v st t r1 r2 r3 r4 :
  reachable s h v st ->
  cancelled (mem st) = true ->
  threads st !! start_tid = Some t -> at_loop t = true ->
  exists st',
    exec [(start_tid, r1); (start_tid, r2); (start_tid, r3); (start_tid, r4)] st
    = Some st'
    /\ threads st' = <[start_tid := Ready (Ret tt)]> (threads st)
    /\ running (mem st') = 0%Z
    /\ trace st'
       = [ (start_tid, WaitGroupAdded Running (-1));
           (start_tid, Logged "SQS listener stopped.");
           (start_tid, DoneChecked true) ] ++ trace st.
Proof.
  intros Hr Hcan Ht Hloop.
  destruct (reachable_Inv _ _ _ _ Hr) as (spc & ppc & ws & HI).
  pose proof (inv_threads _ _ _ _ _ _ _ HI) as Hth.
  pose proof (inv_running _ _ _ _ _ _ _ HI) as Hrun.
  rewrite Hth in Ht. cbn in Ht. inversion Ht; subst t. clear Ht.
  assert (spc = SLoop) as ->.
  { destruct spc as [| | | | | | |v'|v'|e|msgs|wg msgs|wg [|m rest]];
      by cbn in Hloop. }
  cbn in Hrun.
  set (rest := stop_at s ppc :: map (worker_thread s h) ws) in *.
  cbn [exec].
  rewrite (step_start_from s h st rest SLoop) by done. cbn [start_step].
  rewrite (step_start_from s h _ rest SPoll) by (cbn; by rewrite app_nil_r).
  cbn [start_step mem]. rewrite Hcan.
  rewrite (step_start_from s h _ rest SStopLog) by (cbn; by rewrite !app_nil_r).
  cbn [start_step mem].
  rewrite (step_start_from s h _ rest SDeferred) by (cbn; by rewrite !app_nil_r).
  cbn [start_step mem]. unfold add_counter. cbn [counter]. rewrite Hrun.
  cbn. eexists. split; [reflexivity|]. cbn. rewrite Hth.
  by rewrite !app_nil_r.
Qed.

Lemma cancelled_start_returns_witness :
  reachable demo_service demo_handler default_vars stopping_state
  /\ cancelled (mem stopping_state) = true
  /\ exists st',
       exec [(start_tid, NoResponse); (start_tid, NoResponse);
             (start_tid, NoResponse); (start_tid, NoResponse)] stopping_state
       = Some st'
       /\ running (mem st') = 0%Z.
Proof.
  assert (H1 : reachable demo_service demo_handler default_vars stopping_state)
    by (exists stopping_schedule; vm_compute; reflexivity).
  assert (H2 : cancelled (mem stopping_state) = true) by reflexivity.
  destruct (cancelled_start_returns _ _ _ _ _ NoResponse NoResponse NoResponse
              NoResponse H1 H2 eq_refl eq_refl) as (st' & Hex & _ & Hrun & _).
  split; [exact H1|]. split; [exact H2|]. exists st'. split; [exact Hex|exact Hrun].
Defined.

(** X8.  [NewService] returns a service or an error, never both and never
    neither, and it logs that it cannot get the queue exactly when it
    returns the error.  Every receive call and every delete call of the
    service it returns goes to the URL that the transport gave at
    construction, which is the empty string when the answer held no URL:
    the URL is never resolved again. *)
Theorem constructed_service_keeps_its_queue env n svc err :
  (run_NewService env n).2 = Some (svc, err) ->
  (svc = None <-> err <> None)
  /\ (CtorLogged "Can't get the SQS queue" ∈ (run_NewService env n).1
      <-> err <> None)
  /\ forall s h v st,
       svc = Some s -> reachable s h v st ->
       let url := aws_StringValue
                    (QueueUrl (GetQueueUrl env {| QueueName := Some n |}).1) in
       (forall tid p, (tid, ReceiveCalled p) ∈ trace st -> rcv_QueueUrl p = Some url)
       /\ (forall tid p, (tid, DeleteCalled p) ∈ trace st -> del_QueueUrl p = Some url).
Proof.
  unfold run_NewService, NewService. cbn.
  destruct (session_ok env); cbn; [|done]. unfold aws_String.
  destruct (GetQueueUrl env {| QueueName := Some n |}) as [out [e|]]; cbn;
    intros [= <- <-].
  - split; [done|]. split; [|done].
    split; [done|]. intros _. apply list_elem_of_In. cbn. tauto.
  - split; [split; [done|intros H; by destruct H]|]. split.
    + split; [|intros H; by destruct H]. intros Hin.
      apply list_elem_of_In in Hin. cbn in Hin. intuition discriminate.
    + intros s h v st [= <-] Hr.
      destruct (reachable_Inv _ _ _ _ Hr) as (spc & ppc & ws & HI). split.
      * intros tid p Hin.
        pose proof (inv_receives _ _ _ _ _ _ _ HI) as Hrcv.
        rewrite Forall_forall in Hrcv.
        destruct (Hrcv _ Hin p eq_refl) as [_ ->]. reflexivity.
      * intros tid p Hin.
        destruct (worker_view _ _ _ _ _ _ _ _ _ HI Hin eq_refl)
          as (i & [wg m pc] & -> & Hw & Hev).
        cbn in Hev. apply delete_called_events in Hev as [_ ->]. reflexivity.
Qed.

Lemma constructed_service_keeps_its_queue_witness :
  (run_NewService demo_env "jobs").2 = Some (Some demo_service, None)
  /\ reachable demo_service demo_handler default_vars demo_state
  /\ forall tid p, (tid, DeleteCalled p) ∈ trace demo_state ->
                   del_QueueUrl p = Some "https://sqs/jobs".
Proof.
  assert (H1 : (run_NewService demo_env "jobs").2 = Some (Some demo_service, None))
    by reflexivity.
  assert (H2 : reachable demo_service demo_handler default_vars demo_state)
    by (exists demo_schedule; vm_compute; reflexivity).
  destruct (constructed_service_keeps_its_queue _ _ _ _ H1) as (_ & _ & Hq).
  destruct (Hq _ _ _ _ eq_refl H2) as [_ Hdel].
  split; [exact H1|]. split; [exact H2|exact Hdel].
Defined.

(** What a step leaves of the state it starts from. *)
Lemma step_frame tid r st st' :
  step (tid, r) st = Some st' ->
  exists t' sp acts,
    threads st' = <[tid := t']> (threads st) ++ sp
    /\ trace st' = rev (map (pair tid) acts) ++ trace st.
Proof.
  unfold step. cbn [fst snd]. destruct (threads st !! tid) as [t|]; [|done].
  destruct (step_thread _ _ _ t) as [res|]; [|done].
  intros [= <-]. cbn. eauto.
Qed.

Lemma step_keeps_start tid r st st' :
  step (tid, r) st = Some st' -> tid <> start_tid ->
  threads st' !! start_tid = threads st !! start_tid.
Proof.
  intros Hstep Hne.
  destruct (step_unfinished _ _ _ _ Hstep) as (t & Ht & _).
  destruct (step_frame _ _ _ _ Hstep) as (t' & sp & acts & -> & _).
  pose proof (lookup_lt_Some _ _ _ Ht) as Hlen.
  rewrite lookup_app_l by (rewrite length_insert; unfold start_tid; lia).
  by rewrite list_lookup_insert_ne.
Qed.

Lemma start_logs_mono tr newer line :
  start_logs tr line -> start_logs (newer ++ tr) line.
Proof.
  intros [->|(resp & e & -> & Hin)]; [by left|]. right. exists resp, e.
  split; [done|]. apply elem_of_app. by right.
Qed.

(** The lines that a goroutine of a message logs. *)
Lemma logged_events s h wg m pc line :
  Logged line ∈ worker_events s h wg m pc ->
  exists e, line = Error e
            /\ (HandlerReturned m (Some e) ∈ worker_events s h wg m pc
                \/ exists p, DeleteReturned p (Some e) ∈ worker_events s h wg m pc).
Proof.
  intros Hin.
  assert (Hcases : (exists e, HandleMessage h m = Some e /\ line = Error e
                              /\ HandlerReturned m (Some e)
                                 ∈ worker_events s h wg m pc)
                   \/ (exists e, line = Error e
                                 /\ DeleteReturned (delete_params s m) (Some e)
                                    ∈ worker_events s h wg m pc)).
  { apply list_elem_of_In in Hin.
    destruct pc as [| |e| | |e [|]|[[d|]|]|[[d|]|]]; cbn in Hin |- *;
      unfold reported, deleted, before_delete, handled in Hin |- *;
      destruct (HandleMessage h m) as [x|]; cbn in Hin;
      rewrite ?in_app_iff in Hin; cbn in Hin;
      decompose [or] Hin; simplify_eq; try contradiction;
      first [ left; eexists; split; [reflexivity|]; split; [reflexivity|];
              apply list_elem_of_In; rewrite ?in_app_iff; cbn; tauto
            | right; eexists; split; [reflexivity|];
              apply list_elem_of_In; rewrite ?in_app_iff; cbn; tauto ]. }
  destruct Hcases as [(e & _ & -> & He)|(e & -> & He)]; exists e; eauto.
Qed.

Lemma elem_of_tagged (tid tid' : nat) (a : action) acts :
  (tid, a) ∈ rev (map (pair tid') acts) -> tid = tid' /\ a ∈ acts.
Proof.
  intros Hin. apply elem_of_rev_list, list_elem_of_In, in_map_iff in Hin.
  destruct Hin as (b & [= <- <-] & Hb). split; [done|]. by apply list_elem_of_In.
Qed.

Lemma next_log_start_at s h pc line :
  next_log (start_at s h pc) = Some line ->
  (pc = SStopLog /\ line = "SQS listener stopped.")
  \/ (exists e, pc = SReceiveErr e /\ line = Error e).
Proof.
  destruct pc as [| | | | | | |v'|v'|e|msgs|wg msgs|wg [|m rest]]; cbn;
    intros Hl; simplify_eq; eauto.
Qed.

Lemma start_step_logs s h mu fresh r spc spc' mu' sp acts :
  start_step s h mu fresh r spc = Some (spc', mu', sp, acts) ->
  (forall line, Logged line ∈ acts -> next_log (start_at s h spc) = Some line)
  /\ (forall e, spc' = SReceiveErr e ->
                exists resp, acts = [ReceiveReturned resp (Some e)]).
Proof.
  intros Hres.
  destruct spc as [| | | | | | |v'|v'|e|msgs|wg msgs|wg [|m rest]];
    cbn in Hres; unfold add_counter in Hres; cbn in Hres;
    repeat case_match; simplify_eq;
    (split;
      [ intros line Hin; apply list_elem_of_In in Hin; cbn in Hin;
        decompose [or] Hin; simplify_eq; try contradiction; reflexivity
      | intros e' He; simplify_eq; eauto ]).
Qed.

(** What [Start] and [Stop] log. *)
Lemma start_stop_logs s h v st :
  reachable s h v st ->
  (forall t line, threads st !! start_tid = Some t -> next_log t = Some line ->
                  start_logs (trace st) line)
  /\ (forall line, (start_tid, Logged line) ∈ trace st -> start_logs (trace st) line)
  /\ (forall line, (stop_tid, Logged line) ∈ trace st ->
                   line = "Reveived stop request, stopping SQS listener.").
Proof.
  revert st. apply reachable_ind.
  - split; [|split].
    + intros t line [= <-]. done.
    + intros line Hin. by apply elem_of_nil in Hin.
    + intros line Hin. by apply elem_of_nil in Hin.
  - intros st c st' Hr (IH1 & IH2 & IH3) Hstep.
    destruct (reachable_Inv _ _ _ _ Hr) as (spc & ppc & ws & HI).
    pose proof (inv_threads _ _ _ _ _ _ _ HI) as Hth.
    destruct c as [[|[|i]] r].
    + destruct (start_step_view _ _ _ _ _ _ _ _ _ HI Hstep)
        as (spc' & mu' & sp & acts & Hres & ->).
      destruct (start_step_logs _ _ _ _ _ _ _ _ _ _ Hres) as [Hlogs Herr].
      cbn [trace threads]. split; [|split].
      * intros t line Ht Hl. rewrite Hth in Ht. cbn in Ht. inversion Ht; subst t.
        apply next_log_start_at in Hl as [[-> ->]|(e & -> & ->)]; [by left|].
        destruct (Herr e eq_refl) as (resp & ->). right. exists resp, e.
        split; [done|]. cbn. apply elem_of_cons. by left.
      * intros line Hin. apply elem_of_app in Hin as [Hin|Hin].
        -- apply elem_of_tagged in Hin as [_ Hin]. apply start_logs_mono.
           apply (IH1 (start_at s h spc)); [by rewrite Hth|by apply Hlogs].
        -- apply start_logs_mono. by apply IH2.
      * intros line Hin. apply elem_of_app in Hin as [Hin|Hin].
        -- by apply elem_of_tagged in Hin as [? _].
        -- by apply IH3.
    + pose proof (step_keeps_start _ _ _ _ Hstep (ltac:(done))) as Hkeep.
      destruct (step_at_point (stop_at s) stop_tid r st st' ppc
                  (stop_step (mem st) ppc))
        as (p' & mu' & sp & acts & Hres & Hst');
        [by rewrite Hth | apply step_stop_at | done |].
      assert (Htr : trace st' = rev (map (pair stop_tid) acts) ++ trace st)
        by (by subst st').
      rewrite Htr. split; [|split].
      * intros t line Ht Hl. rewrite Hkeep in Ht. apply start_logs_mono. eauto.
      * intros line Hin. apply elem_of_app in Hin as [Hin|Hin].
        -- by apply elem_of_tagged in Hin as [? _].
        -- apply start_logs_mono. by apply IH2.
      * intros line Hin. apply elem_of_app in Hin as [Hin|Hin]; [|by apply IH3].
        apply elem_of_tagged in Hin as [_ Hin]. apply list_elem_of_In in Hin.
        destruct ppc; cbn in Hres; repeat case_match; simplify_eq; cbn in Hin;
          decompose [or] Hin; simplify_eq; try contradiction; reflexivity.
    + pose proof (step_keeps_start _ _ _ _ Hstep (ltac:(done))) as Hkeep.
      destruct (step_frame _ _ _ _ Hstep) as (t' & sp & acts & _ & Htr).
      rewrite Htr. split; [|split].
      * intros t line Ht Hl. rewrite Hkeep in Ht. apply start_logs_mono. eauto.
      * intros line Hin. apply elem_of_app in Hin as [Hin|Hin].
        -- by apply elem_of_tagged in Hin as [? _].
        -- apply start_logs_mono. by apply IH2.
      * intros line Hin. apply elem_of_app in Hin as [Hin|Hin]; [|by apply IH3].
        by apply elem_of_tagged in Hin as [? _].
Qed.

(** X9.  Every line that the service logs is accounted for.  [Start] logs
    that the listener stopped, or the error that one of its receive calls
    returned; [Stop] logs its one line; the goroutine of a message logs the
    error that its handler call or its delete call returned.  A message
    that is handled and deleted without an error leaves no line. *)
Theorem log_lines_are_accounted_for s h v st tid line :
  reachable s h v st ->
  (tid, Logged line) ∈ trace st ->
  match tid with
  | 0 => start_logs (trace st) line
  | 1 => line = "Reveived stop request, stopping SQS listener."
  | _ =>
      exists e,
        line = Error e
        /\ ((exists m, (tid, HandlerReturned m (Some e)) ∈ trace st)
            \/ (exists p, (tid, DeleteReturned p (Some e)) ∈ trace st))
  end.
Proof.
  intros Hr Hin. destruct (start_stop_logs _ _ _ _ Hr) as (_ & Hstart & Hstop).
  destruct tid as [|[|i]]; [by apply Hstart|by apply Hstop|].
  destruct (reachable_Inv _ _ _ _ Hr) as (spc & ppc & ws & HI).
  pose proof (inv_tids _ _ _ _ _ _ _ HI) as Htid.
  rewrite Forall_forall in Htid. specialize (Htid _ Hin). cbn in Htid.
  destruct (lookup_lt_is_Some_2 ws i) as [[wg m pc] Hw]; [lia|].
  pose proof (inv_own _ _ _ _ _ _ _ HI _ _ Hw) as Hown.
  cbn [wi_wg wi_msg wi_pc] in Hown. change (2 + i) with (S (S i)) in Hown.
  apply elem_of_actions_of in Hin. rewrite Hown in Hin.
  apply elem_of_rev_list, logged_events in Hin as (e & -> & Hsrc).
  exists e. split; [done|].
  destruct Hsrc as [Hh|(p & Hd)]; [left; exists m|right; exists p];
    apply elem_of_actions_of; rewrite Hown; by apply elem_of_rev_list.
Qed.

Lemma log_lines_are_accounted_for_witness :
  reachable demo_service demo_handler default_vars demo_state
  /\ (3, Logged (Error demo_delete_failure)) ∈ trace demo_state
  /\ exists e,
       Error demo_delete_failure = Error e
       /\ ((exists m, (3, HandlerReturned m (Some e)) ∈ trace demo_state)
           \/ (exists p, (3, DeleteReturned p (Some e)) ∈ trace demo_state)).
Proof.
  assert (H1 : reachable demo_service demo_handler default_vars demo_state)
    by (exists demo_schedule; vm_compute; reflexivity).
  assert (H2 : (3, Logged (Error demo_delete_failure)) ∈ trace demo_state)
    by (apply (list_elem_of_lookup_2 _ 9); vm_compute; reflexivity).
  split; [exact H1|]. split; [exact H2|].
  exact (log_lines_are_accounted_for _ _ _ _ 3 _ H1 H2).
Defined.

(** X10.  A round without work goes straight to the next receive call.
    When a receive call returns an error or no message and the context is
    not cancelled, the next steps of [Start] are always possible and end
    in the next receive call, with the package variables of that moment:
    in between [Start] logs the error, if any, checks the context and reads
    the variables.  It starts no goroutine, creates no wait group and does
    not wait. *)
Theorem idle_round_polls_again s h v st r st1 resp err :
  reachable s h v st ->
  step (start_tid, r) st = Some st1 ->
  trace st1 = (start_tid, ReceiveReturned resp err) :: trace st ->
  err <> None \/ Messages resp = [] ->
  cancelled (mem st1) = false ->
  exists n st2,
    exec (repeat (start_tid, NoResponse) n) st1 = Some st2
    /\ trace st2
       = (start_tid, ReceiveCalled (receive_params s v))
           :: (start_tid, VarsLoaded v) :: (start_tid, DoneChecked false)
           :: match err with
              | Some e => [(start_tid, Logged (Error e))]
              | None => []
              end ++ trace st1
    /\ length (threads st2) = length (threads st)
    /\ mem st2 = mem st.
Proof.
  intros Hr Hstep Htr Hidle Hcan.
  destruct (reachable_Inv _ _ _ _ Hr) as (spc & ppc & ws & HI).
  pose proof (inv_threads _ _ _ _ _ _ _ HI) as Hth.
  pose proof (inv_vars _ _ _ _ _ _ _ HI) as Hv.
  destruct (start_step_inv _ _ _ _ _ _ _ _ _ _ HI Hstep Htr)
    as (spc' & mu' & sp & Hres & Hth1 & Hmem1).
  rewrite Hth in Hth1. cbn in Hth1.
  set (rest := stop_at s ppc :: map (worker_thread s h) ws) in *.
  assert (Hlen : length (threads st) = S (length rest)) by (by rewrite Hth).
  destruct spc as [| | | | | | |v'|v'|e|msgs|wg msgs|wg [|m rest']];
    cbn in Hres; unfold add_counter in Hres; cbn in Hres;
    repeat case_match; simplify_eq.
  - (* the receive call returned an error *)
    exists 5. cbn [repeat exec]. rewrite app_nil_r in Hth1.
    rewrite (step_start_from s h st1 rest (SReceiveErr _)) by done.
    cbn [start_step].
    rewrite (step_start_from s h _ rest SLoop) by (cbn; by rewrite app_nil_r).
    cbn [start_step mem].
    rewrite (step_start_from s h _ rest SPoll) by (cbn; by rewrite !app_nil_r).
    cbn [start_step mem]. rewrite Hcan.
    rewrite (step_start_from s h _ rest SLoad) by (cbn; by rewrite !app_nil_r).
    cbn [start_step mem].
    rewrite (step_start_from s h _ rest (SReceive _)) by (cbn; by rewrite !app_nil_r).
    cbn [start_step mem].
    eexists. split; [reflexivity|]. cbn. rewrite !app_nil_r, Hlen.
    assert (Hm : mem st1 = mem st) by congruence. by rewrite Hm.
  - (* no message *)
    exists 4. cbn [repeat exec]. rewrite app_nil_r in Hth1.
    rewrite (step_start_from s h st1 rest SLoop) by done.
    cbn [start_step mem].
    rewrite (step_start_from s h _ rest SPoll) by (cbn; by rewrite !app_nil_r).
    cbn [start_step mem]. rewrite Hcan.
    rewrite (step_start_from s h _ rest SLoad) by (cbn; by rewrite !app_nil_r).
    cbn [start_step mem].
    rewrite (step_start_from s h _ rest (SReceive _)) by (cbn; by rewrite !app_nil_r).
    cbn [start_step mem].
    eexists. split; [reflexivity|]. cbn. rewrite !app_nil_r, Hlen.
    assert (Hm : mem st1 = mem st) by congruence. by rewrite Hm.
  - (* a batch *)
    destruct Hidle as [Hne|Hnil]; [done|]. congruence.
Qed.

Lemma idle_round_polls_again_witness :
  reachable demo_service demo_handler default_vars polling_state
  /\ step (start_tid, ReceiveResult {| Messages := [] |} (Some receive_failure))
       polling_state = Some errored_state
  /\ cancelled (mem errored_state) = false
  /\ exists n st2,
       exec (repeat (start_tid, NoResponse) n) errored_state = Some st2
       /\ trace st2
          = (start_tid, ReceiveCalled (receive_params demo_service default_vars))
              :: (start_tid, VarsLoaded default_vars)
              :: (start_tid, DoneChecked false)
              :: (start_tid, Logged (Error receive_failure))
              :: trace errored_state.
Proof.
  assert (H1 : reachable demo_service demo_handler default_vars polling_state)
    by (exists (take 5 demo_schedule); vm_compute; reflexivity).
  assert (H2 : step (start_tid,
                     ReceiveResult {| Messages := [] |} (Some receive_failure))
                 polling_state = Some errored_state)
    by (vm_compute; reflexivity).
  assert (H3 : trace errored_state
               = (start_tid, ReceiveReturned {| Messages := [] |}
                               (Some receive_failure)) :: trace polling_state)
    by (vm_compute; reflexivity).
  assert (H4 : Some receive_failure <> None \/ Messages {| Messages := [] |} = [])
    by (right; reflexivity).
  assert (H5 : cancelled (mem errored_state) = false) by reflexivity.
  destruct (idle_round_polls_again _ _ _ _ _ _ _ _ H1 H2 H3 H4 H5)
    as (n & st2 & Hex & Htr & _).
  split; [exact H1|]. split; [exact H2|]. split; [exact H5|].
  exists n, st2. split; [exact Hex|exact Htr].
Defined.

(** [run] starts the goroutines of a batch one after the other. *)
Lemma spawn_all s h wg msgs : forall rest st,
  threads st = start_at s h (SRunSpawn wg msgs) :: rest ->
  exists st',
    exec (repeat (start_tid, NoResponse) (length msgs)) st = Some st'
    /\ threads st'
       = start_at s h (SRunSpawn wg []) :: rest
         ++ map (fun m => Ready (worker s h wg m)) msgs
    /\ batches (trace st') = batches (trace st).
Proof.
  induction msgs as [|m msgs IH]; intros rest st Hth.
  - exists st. cbn. by rewrite app_nil_r.
  - cbn [length repeat exec].
    rewrite (step_start_from s h st rest (SRunSpawn wg (m :: msgs))) by done.
    cbn [start_step].
    destruct (IH (rest ++ [Ready (worker s h wg m)])
                {| threads := start_at s h (SRunSpawn wg msgs)
                              :: rest ++ [Ready (worker s h wg m)];
                   mem := mem st;
                   trace := rev (map (pair start_tid) [GoStarted (S (length rest))])
                            ++ trace st |} eq_refl)
      as (st' & Hex & Hth' & Hb).
    exists st'. split; [exact Hex|]. split; [|exact Hb].
    rewrite Hth', <- app_assoc. done.
Qed.

(** Each goroutine of a batch can call the handler before any of them has
    returned from it. *)
Lemma handle_all s h wg msgs : forall pre st,
  threads st = pre ++ map (fun m => Ready (worker s h wg m)) msgs ->
  exists st',
    exec (map (fun i => (i, NoResponse)) (seq (length pre) (length msgs))) st
    = Some st'
    /\ threads st' = pre ++ map (fun m => Waiting (worker s h wg m)) msgs
    /\ batches (trace st') = batches (trace st).
Proof.
  induction msgs as [|m msgs IH]; intros pre st Hth.
  - exists st. done.
  - cbn [length seq map exec].
    assert (Hstep : step (length pre, NoResponse) st
              = Some {| threads := (pre ++ [Waiting (worker s h wg m)])
                                   ++ map (fun m => Ready (worker s h wg m)) msgs;
                        mem := mem st;
                        trace := (length pre, HandlerCalled m) :: trace st |}).
    { unfold step. cbn [fst snd]. rewrite Hth. cbn [map].
      rewrite list_lookup_middle by done.
      change (Ready (worker s h wg m)) with (worker_at s h wg m WStart).
      rewrite step_worker_at. cbn.
      rewrite insert_app_r_alt by lia. rewrite Nat.sub_diag. cbn.
      by rewrite app_nil_r, <- app_assoc. }
    rewrite Hstep.
    match goal with
    | |- context [exec _ ?st1] =>
        destruct (IH (pre ++ [Waiting (worker s h wg m)]) st1 eq_refl)
          as (st' & Hex & Hth' & Hb)
    end.
    rewrite length_app, Nat.add_1_r in Hex.
    exists st'. split; [exact Hex|]. split; [|exact Hb].
    rewrite Hth', <- app_assoc. done.
Qed.

(** X11.  The goroutines of a batch do run at the same time.  For every
    batch of messages there is an execution in which the transport returns
    that batch and all its goroutines are inside their handler call
    together, none having returned: the bound on the running goroutines is
    reached, so a handler must be safe for as many concurrent calls as a
    batch has messages. *)
Theorem handlers_run_concurrently s h v msgs :
  msgs <> [] ->
  exists st,
    reachable s h v st
    /\ workers st = map (fun m => Waiting (worker s h (LocalWg 0) m)) msgs
    /\ active (workers st) = length msgs
    /\ last_batch (trace st) = msgs.
Proof.
  intros Hne.
  set (cs0 := repeat (start_tid, NoResponse) 5
              ++ [ (start_tid, ReceiveResult {| Messages := msgs |} None);
                   (start_tid, NoResponse); (start_tid, NoResponse) ]).
  assert (H0 : exists st0,
            exec cs0 (init s h v) = Some st0
            /\ threads st0
               = start_at s h (SRunSpawn (LocalWg 0) msgs) :: [stop_at s PLog]
            /\ batches (trace st0) = [msgs]).
  { unfold cs0. cbn [repeat app exec].
    rewrite (step_start_from s h (init s h v) [stop_at s PLog] SEnter) by done.
    cbn [start_step mem]. unfold add_counter. cbn [counter running init mem].
    change (0 + 1 <? 0)%Z with false. cbn [set_counter].
    rewrite (step_start_from s h _ [stop_at s PLog] SLoop) by done.
    cbn [start_step mem].
    rewrite (step_start_from s h _ [stop_at s PLog] SPoll) by done.
    cbn [start_step mem cancelled].
    rewrite (step_start_from s h _ [stop_at s PLog] SLoad) by done.
    cbn [start_step mem vars].
    rewrite (step_start_from s h _ [stop_at s PLog] (SReceive v)) by done.
    cbn [start_step mem].
    rewrite (step_start_from s h _ [stop_at s PLog] (SReceiving v)) by done.
    cbn [start_step mem Messages].
    destruct msgs as [|m msgs]; [done|].
    rewrite (step_start_from s h _ [stop_at s PLog] (SRunNew (m :: msgs))) by done.
    cbn [start_step mem wait_groups length].
    rewrite (step_start_from s h _ [stop_at s PLog]
               (SRunAdd (LocalWg 0) (m :: msgs))) by done.
    cbn [start_step]. unfold add_counter. cbn [counter new_wait_group mem wait_groups].
    change (([] ++ [0%Z]) !! 0) with (Some 0%Z). cbn beta iota.
    destruct (0 + Z.of_nat (length (m :: msgs)) <? 0)%Z eqn:Hneg;
      [apply Z.ltb_lt in Hneg; lia|].
    eexists. split; [reflexivity|]. done. }
  destruct H0 as (st0 & Hex0 & Hth0 & Hb0).
  destruct (spawn_all s h (LocalWg 0) msgs _ st0 Hth0) as (st1 & Hex1 & Hth1 & Hb1).
  destruct (handle_all s h (LocalWg 0) msgs
              [start_at s h (SRunSpawn (LocalWg 0) []); stop_at s PLog] st1 Hth1)
    as (st2 & Hex2 & Hth2 & Hb2).
  exists st2. split; [|split; [|split]].
  - exists (cs0 ++ repeat (start_tid, NoResponse) (length msgs)
                ++ map (fun i => (i, NoResponse)) (seq 2 (length msgs))).
    rewrite exec_app, Hex0. rewrite exec_app, Hex1. exact Hex2.
  - unfold workers. by rewrite Hth2.
  - unfold workers. rewrite Hth2.
    change (active (map (fun m => Waiting (worker s h (LocalWg 0) m)) msgs)
            = length msgs).
    clear. induction msgs as [|m msgs IH]; [done|].
    cbn [active map finished length]. by rewrite IH.
  - unfold last_batch. by rewrite Hb2, Hb1, Hb0.
Qed.

Lemma handlers_run_concurrently_witness :
  Messages demo_batch <> []
  /\ exists st,
       reachable demo_service demo_handler default_vars st
       /\ active (workers st) = 3
       /\ last_batch (trace st) = Messages demo_batch.
Proof.
  assert (H1 : Messages demo_batch <> []) by discriminate.
  destruct (handlers_run_concurrently demo_service demo_handler default_vars _ H1)
    as (st & Hr & _ & Hact & Hb).
  split; [exact H1|]. exists st. split; [exact Hr|]. split; [exact Hact|exact Hb].
Defined.

(** The steps of [Stop] and of the goroutine of a message, in a state
    where they are at a given program point. *)
Lemma step_stop_from s st a rest pc r :
  threads st = a :: stop_at s pc :: rest ->
  step (stop_tid, r) st
  = match stop_step (mem st) pc with
    | Some (pc', mu', sp, acts) =>
        Some {| threads := a :: stop_at s pc' :: rest ++ sp;
                mem := mu';
                trace := rev (map (pair stop_tid) acts) ++ trace st |}
    | None => None
    end.
Proof.
  intros Hth. unfold step. cbn [fst snd]. rewrite Hth.
  change ((a :: stop_at s pc :: rest) !! stop_tid) with (Some (stop_at s pc)).
  cbv beta iota. rewrite step_stop_at.
  by destruct (stop_step (mem st) pc) as [[[[pc' mu'] sp] acts]|].
Qed.

Lemma step_worker_from s h st a b ws i wg m pc r :
  threads st = a :: b :: map (worker_thread s h) ws ->
  ws !! i = Some {| wi_wg := wg; wi_msg := m; wi_pc := pc |} ->
  step (2 + i, r) st
  = match worker_step s h (mem st) r wg m pc with
    | Some (pc', mu', sp, acts) =>
        Some {| threads :=
                  a :: b :: map (worker_thread s h)
                             (<[i := {| wi_wg := wg; wi_msg := m; wi_pc := pc' |}]> ws)
                  ++ sp;
                mem := mu';
                trace := rev (map (pair (2 + i)) acts) ++ trace st |}
    | None => None
    end.
Proof.
  intros Hth Hw. unfold step. cbn [fst snd]. rewrite Hth.
  change ((a :: b :: map (worker_thread s h) ws) !! (2 + i))
    with ((worker_thread s h <$> ws) !! i).
  rewrite list_lookup_fmap, Hw. cbn [fmap option_fmap option_map].
  unfold worker_thread at 1 2. cbn [wi_wg wi_msg wi_pc].
  rewrite step_worker_at.
  destruct (worker_step s h (mem st) r wg m pc) as [[[[pc' mu'] sp] acts]|];
    [|done].
  cbn [at_point sr_thread sr_mem sr_spawned sr_actions]. f_equal. f_equal.
  change (map (worker_thread s h)
            (<[i := {| wi_wg := wg; wi_msg := m; wi_pc := pc' |}]> ws))
    with (worker_thread s h <$> <[i := {| wi_wg := wg; wi_msg := m; wi_pc := pc' |}]> ws).
  by rewrite list_fmap_insert.
Qed.










(** X13.  A message that the handler rejects with an [InvalidMessageError]
    is logged, then deleted.  When the handler returns the value built by
    [NewInvalidMessageError a b], the goroutine, once it has returned, has
    done exactly this, in this order: the handler call, the log line
    "[Invalid Message: a] b", one delete call for the message, the log line
    of the error of that delete call if it failed, and its [wg.Done()]. *)
Theorem invalid_message_is_logged_then_deleted s h v st tid t m a b :
  reachable s h v st ->
  (tid, HandlerReturned m (Some (ErrInvalidMessage (NewInvalidMessageError a b))))
    ∈ trace st ->
  threads st !! tid = Some t -> finished t = true ->
  exists wg derr,
    rev (actions_of tid (trace st))
    = [ HandlerCalled m;
        HandlerReturned m (Some (ErrInvalidMessage (NewInvalidMessageError a b)));
        Logged ("[Invalid Message: " ++ a ++ "] " ++ b)%string;
        DeleteCalled (delete_params s m);
        DeleteReturned (delete_params s m) derr ]
      ++ match derr with
         | Some e => [Logged (Error e)]
         | None => []
         end
      ++ [WaitGroupAdded wg (-1)].
Proof.
  intros Hr Hin Ht Hfin.
  destruct (delivery_view _ _ _ _ _ _ _ Hr Hin)
    as (wg & pc & Ht' & Herr & Hok & Hown & Htid).
  rewrite Ht in Ht'. inversion Ht'; subst t. rewrite finished_worker_at in Hfin.
  rewrite Hown, rev_involutive.
  destruct pc as [| |x| | |x c|d|d]; try discriminate Hfin.
  destruct d as [derr|]; cbn in Hok; rewrite <- Herr in Hok; [|discriminate Hok].
  exists wg, derr. cbn [worker_events]. unfold reported, deleted, before_delete, handled.
  rewrite <- Herr. destruct derr as [e|]; reflexivity.
Qed.

Lemma invalid_message_is_logged_then_deleted_witness :
  reachable demo_service demo_handler default_vars demo_state
  /\ exists wg derr,
       rev (actions_of 3 (trace demo_state))
       = [ HandlerCalled (demo_message "bad");
           HandlerReturned (demo_message "bad") (Some demo_invalid);
           Logged "[Invalid Message: bad] malformed body";
           DeleteCalled (delete_params demo_service (demo_message "bad"));
           DeleteReturned (delete_params demo_service (demo_message "bad")) derr ]
         ++ match derr with
            | Some e => [Logged (Error e)]
            | None => []
            end
         ++ [WaitGroupAdded wg (-1)].
Proof.
  assert (H1 : reachable demo_service demo_handler default_vars demo_state)
    by (exists demo_schedule; vm_compute; reflexivity).
  assert (H2 : (3, HandlerReturned (demo_message "bad")
                     (Some (ErrInvalidMessage
                              (NewInvalidMessageError "bad" "malformed body"))))
               ∈ trace demo_state)
    by (apply (list_elem_of_lookup_2 _ 18); vm_compute; reflexivity).
  split; [exact H1|].
  exact (invalid_message_is_logged_then_deleted _ _ _ _ 3 _ _ _ _ H1 H2
           eq_refl eq_refl).
Defined.

Lemma ahead_start_at s h pc :
  calls_ahead (start_at s h pc)
  = match pc with
    | SLoad | SReceive _ => 1
    | _ => 0
    end
  /\ returns_ahead (start_at s h pc)
     = match pc with
       | SLoad | SReceive _ | SReceiving _ => 1
       | _ => 0
       end.
Proof. by destruct pc as [| | | | | | |v'|v'|e|msgs|wg msgs|wg [|m rest]]. Qed.

Lemma ahead_le_1 t : calls_ahead t <= 1 /\ returns_ahead t <= 1.
Proof. destruct t as [[a|X e k|c k|b k]|[a|X e k|c k|b k]]; cbn; try lia; destruct e; lia. Qed.

Lemma since_cancel_worker_action count t a tr :
  worker_action a = true ->
  count a = false ->
  since_cancel count ((t, a) :: tr) = since_cancel count tr.
Proof. intros Ha Hc. cbn. rewrite Hc. by destruct a. Qed.

(** After the cancellation [Start] makes the receive call that it has
    ahead, if any, and no other. *)
Lemma cancelled_rounds s h v st :
  reachable s h v st ->
  ((stop_tid, CancelCalled) ∈ trace st -> cancelled (mem st) = true)
  /\ (cancelled (mem st) = true ->
      forall t, threads st !! start_tid = Some t ->
        since_cancel is_receive_call (trace st) + calls_ahead t <= 1
        /\ since_cancel is_receive_return (trace st) + returns_ahead t <= 1).
Proof.
  revert st. apply reachable_ind.
  - split; [intros Hin; by apply elem_of_nil in Hin|]. done.
  - intros st c st' Hr [IH1 IH2] Hstep.
    destruct (reachable_Inv _ _ _ _ Hr) as (spc & ppc & ws & HI).
    pose proof (inv_threads _ _ _ _ _ _ _ HI) as Hth.
    assert (IH2' : cancelled (mem st) = true ->
              since_cancel is_receive_call (trace st)
              + calls_ahead (start_at s h spc) <= 1
              /\ since_cancel is_receive_return (trace st)
                 + returns_ahead (start_at s h spc) <= 1).
    { intros Hcan. apply IH2; [done|]. by rewrite Hth. }
    clear IH2. destruct c as [[|[|i]] r].
    + (* a step of [Start] *)
      destruct (Inv_step_start _ _ _ _ _ _ _ _ _ HI Hstep) as (spc1 & ws1 & HI1).
      assert (Hmem : cancelled (mem st') = cancelled (mem st)).
      { rewrite (inv_cancelled _ _ _ _ _ _ _ HI1).
        by rewrite (inv_cancelled _ _ _ _ _ _ _ HI). }
      clear HI1.
      destruct (start_step_view _ _ _ _ _ _ _ _ _ HI Hstep)
        as (spc' & mu' & sp & acts & Hres & ->).
      cbn [trace threads mem] in *.
      split.
      * intros Hin. rewrite Hmem. apply IH1.
        apply elem_of_app in Hin as [Hin|Hin]; [|done].
        by apply elem_of_tagged in Hin as [? _].
      * rewrite Hmem. intros Hcan t Ht. rewrite Hth in Ht. cbn in Ht.
        inversion Ht; subst t. clear Ht.
        specialize (IH2' Hcan).
        destruct (ahead_start_at s h spc) as [Hc Hr0]. rewrite Hc, Hr0 in IH2'.
        destruct (ahead_start_at s h spc') as [Hc' Hr']. rewrite Hc', Hr'.
        clear Hc Hr0 Hc' Hr'.
        destruct spc as [| | | | | | |v'|v'|e|msgs|wg msgs|wg [|m rest]];
          cbn in Hres; unfold add_counter in Hres;
          rewrite ?Hcan in Hres;
          repeat (destruct (counter _ _) as [?|]; cbn in Hres; try discriminate);
          repeat match type of Hres with
                 | context [if ?b then _ else _] => destruct b
                 | context [match ?x with _ => _ end] => destruct x
                 end; simplify_eq; cbn; lia.
    + (* a step of [Stop] *)
      pose proof (step_keeps_start _ _ _ _ Hstep (ltac:(done))) as Hkeep.
      rewrite (step_stop_from s st _ _ ppc _ Hth) in Hstep.
      pose proof (inv_cancelled _ _ _ _ _ _ _ HI) as Hcan0.
      rewrite Hkeep, Hth.
      change ((start_at s h spc :: stop_at s ppc :: map (worker_thread s h) ws)
              !! start_tid) with (Some (start_at s h spc)).
      destruct (ahead_le_1 (start_at s h spc)) as [Hle1 Hle2].
      destruct ppc; cbn in Hstep;
        try match type of Hstep with
            | context [(running (mem st) =? 0)%Z] =>
                destruct (running (mem st) =? 0)%Z
            end; simplify_eq; cbn [trace mem rev map app]; cbn in Hcan0.
      * split; [|intros Hcan; congruence].
        intros Hin. apply elem_of_cons in Hin as [Hin|Hin]; [discriminate|].
        auto.
      * split; [done|]. intros _ t [= <-]. cbn. lia.
      * split; [done|]. intros Hcan t [= <-]. cbn. by apply IH2'.
    + (* a step of the goroutine of a message *)
      pose proof (step_keeps_start _ _ _ _ Hstep (ltac:(done))) as Hkeep.
      destruct (step_unfinished _ _ _ _ Hstep) as (t0 & Ht0 & _).
      destruct (worker_lookup _ _ _ _ _ _ _ _ _ HI Ht0) as ([wg m pc] & Hw & _).
      rewrite (step_worker_from s h st _ _ ws i wg m pc _ Hth Hw) in Hstep.
      destruct (worker_step s h (mem st) r wg m pc)
        as [[[[pc' mu'] sp] acts]|] eqn:Hres; [|discriminate].
      destruct (worker_step_shape _ _ _ _ _ _ _ _ _ _ _ Hres)
        as (_ & (a & -> & Ha) & Hmem).
      assert (Hcan' : cancelled mu' = cancelled (mem st)).
      { destruct Hmem as [[-> _]|(d & _ & _ & Hadd)]; [done|].
        unfold add_counter in Hadd. destruct (counter (mem st) wg); [|done].
        destruct (_ <? 0)%Z; [done|]. inversion Hadd. by destruct wg. }
      inversion Hstep; subst st'. cbn [trace mem threads] in *.
      rewrite Hkeep, Hth, Hcan'. cbn [rev map app].
      change ((start_at s h spc :: stop_at s ppc :: map (worker_thread s h) ws)
              !! start_tid) with (Some (start_at s h spc)).
      rewrite !since_cancel_worker_action by (done || by destruct a).
      split.
      * intros Hin. apply elem_of_cons in Hin as [Hin|Hin]; [by inversion Hin|auto].
      * intros Hcan t [= <-]. by apply IH2'.
Qed.

(** X14.  The work after a cancellation is bounded.  Once [Stop] has
    cancelled the context, [Start] issues at most one more receive call and
    sees at most one receive call return, so that at most one more batch is
    handled before [Start] returns. *)
Theorem one_round_after_cancel s h v st :
  reachable s h v st ->
  (stop_tid, CancelCalled) ∈ trace st ->
  since_cancel is_receive_call (trace st) <= 1
  /\ since_cancel is_receive_return (trace st) <= 1.
Proof.
  intros Hr Hin. destruct (cancelled_rounds _ _ _ _ Hr) as [Hcan Hround].
  destruct (reachable_Inv _ _ _ _ Hr) as (spc & ppc & ws & HI).
  destruct (Hround (Hcan Hin) (start_at s h spc)) as [Hc Hret].
  { by rewrite (inv_threads _ _ _ _ _ _ _ HI). }
  lia.
Qed.

Lemma one_round_after_cancel_witness :
  reachable demo_service demo_handler default_vars stopping_state
  /\ (stop_tid, CancelCalled) ∈ trace stopping_state
  /\ since_cancel is_receive_return (trace stopping_state) = 1
  /\ since_cancel is_receive_call (trace stopping_state) <= 1.
Proof.
  assert (H1 : reachable demo_service demo_handler default_vars stopping_state)
    by (exists stopping_schedule; vm_compute; reflexivity).
  assert (H2 : (stop_tid, CancelCalled) ∈ trace stopping_state)
    by (apply (list_elem_of_lookup_2 _ 1); vm_compute; reflexivity).
  destruct (one_round_after_cancel _ _ _ _ H1 H2) as [Hc _].
  split; [exact H1|]. split; [exact H2|]. split; [reflexivity|exact Hc].
Defined.
